(** * Skip-pointer postings lists and AND-queries of [invertedIndex.py]

    A shallow embedding of the classes [PostingsListNode], [PostingsList]
    and [InvertedIndex], and the properties of construction, skip-link
    placement, merge intersection and query folding.

    Python objects live in a store: a node is addressed by the position
    at which it was allocated, and [next] and [next_skip] hold addresses.
    Every [PostingsList] owns the store of its own nodes (the source never
    shares a node between two lists and never mutates a node after
    [create_postings_list] has returned). *)

From Stdlib Require Import Ascii.
From stdpp Require Import gmap strings list sorting.

Local Open Scope Z_scope.

(** ** Outcomes of a computation

    [ValueError] is the exception of [range] with a zero step.  The other
    two are artefacts of the embedding: [BadAddress] is a reference to no
    node (a Python reference cannot dangle), [OutOfFuel] stands for a
    loop that has not finished within the given number of iterations. *)

Inductive error := ValueError | BadAddress | OutOfFuel.

Inductive outcome (A : Type) :=
| Ok (a : A)
| Err (e : error).
Arguments Ok {A} a.
Arguments Err {A} e.

Definition bind {A B} (m : outcome A) (k : A → outcome B) : outcome B :=
  match m with
  | Ok a => k a
  | Err e => Err e
  end.

Notation "'let*' x ':=' m 'in' k" := (bind m (fun x => k))
  (at level 10, x pattern, m at level 100, k at level 200).

(** ** Nodes and stores *)

Abbreviation addr := nat (only parsing).

Record PostingsListNode := mkNode {
  doc : Z;
  next : option addr;
  next_skip : option addr
}.

(** [PostingsListNode.__init__] *)
Definition PostingsListNode_init (d : Z) : PostingsListNode :=
  {| doc := d; next := None; next_skip := None |}.

Abbreviation store := (list PostingsListNode) (only parsing).

Definition deref (h : store) (a : addr) : outcome PostingsListNode :=
  match h !! a with
  | Some n => Ok n
  | None => Err BadAddress
  end.

(** [h[a].next = b] and [h[a].next_skip = b] *)
Definition set_next (a b : addr) (h : store) : store :=
  alter (λ n, {| doc := doc n; next := Some b; next_skip := next_skip n |}) a h.

Definition set_next_skip (a b : addr) (h : store) : store :=
  alter (λ n, {| doc := doc n; next := next n; next_skip := Some b |}) a h.

Record PostingsList := mkPostingsList {
  docs : list Z;
  root : option addr;
  interval : Z;
  heap : store
}.

(** ** Python built-ins *)

(** [sorted(docs)] on integers. *)
Definition sorted (l : list Z) : list Z := merge_sort Z.le l.

(** [range(0, stop, step)]: the values [0 + step*j], [j >= 0], below
    [stop]; empty for a negative step, [ValueError] for a zero step. *)
Definition py_range (stop : nat) (step : Z) : outcome (list nat) :=
  if step =? 0 then Err ValueError
  else if step <? 0 then Ok []
  else
    let k := Z.to_nat step in
    Ok ((λ j, j * k)%nat <$> seq 0 ((stop + k - 1) / k)%nat).

(** [int(math.sqrt(n))] for the length [n] of a list.  [math.sqrt] works
    on doubles; below [2^52] the double square root rounded down is the
    integer square root, and no list is that long. *)
Definition int_sqrt (n : nat) : Z := Z.sqrt (Z.of_nat n).

(** The interval both call sites compute:
    [int(math.sqrt(len(l))) if len(l) >= 9 else 3]. *)
Definition heuristic_interval (n : nat) : Z :=
  if 9 <=? Z.of_nat n then int_sqrt n else 3.

(** ** [PostingsList.create_postings_list] *)

(** Body of [for doc_id in docs[1:]]; the state is the store together
    with [current].  The list [nodes] of the source holds the nodes in
    allocation order, hence [nodes[i]] is the node at address [i]. *)
Definition link_node (st : store * addr) (doc_id : Z) : store * addr :=
  let '(h, current) := st in
  let new_node := length h in
  (set_next current new_node (h ++ [PostingsListNode_init doc_id]), new_node).

(** Body of [for i in range(0, len(nodes), self.interval)]. *)
Definition place_skip (k : nat) (h : store) (i : nat) : store :=
  if bool_decide (i + k < length h)%nat then set_next_skip i (i + k)%nat h else h.

Definition create_postings_list (itv : Z) (ds : list Z)
  : outcome (option addr * store) :=
  match ds with
  | [] => Ok (None, [])
  | d0 :: rest =>
      let h0 := [PostingsListNode_init d0] in
      let '(h1, _) := fold_left link_node rest (h0, 0%nat) in
      let* positions := py_range (length h1) itv in
      Ok (Some 0%nat, fold_left (place_skip (Z.to_nat itv)) positions h1)
  end.

(** [PostingsList.__init__]: [self.docs] is sorted, the chain is built
    from the argument [docs] as it was passed. *)
Definition PostingsList_init (ds : list Z) (itv : Z) : outcome PostingsList :=
  let* (r, h) := create_postings_list itv ds in
  Ok {| docs := sorted ds; root := r; interval := itv; heap := h |}.

(** The document ids met when following [next] from a cursor; the fuel
    bounds the walk. *)
Fixpoint chain_docs (fuel : nat) (h : store) (p : option addr) : list Z :=
  match fuel, p with
  | S fuel', Some a =>
      match h !! a with
      | Some n => doc n :: chain_docs fuel' h (next n)
      | None => []
      end
  | _, _ => []
  end.

(** The address reached from a cursor after [i] steps along [next]. *)
Fixpoint chain_at (h : store) (p : option addr) (i : nat) : option addr :=
  match i with
  | O => p
  | S i' =>
      match p with
      | Some a => chain_at h (h !! a ≫= next) i'
      | None => None
      end
  end.

(** ** [PostingsList.get_intersecting_documents] *)

(** [while p.next_skip and p.next_skip.doc <= bound: p = p.next_skip];
    the value is the cursor on leaving the loop. *)
Fixpoint follow_skips (fuel : nat) (h : store) (p : addr) (bound : Z)
  : outcome addr :=
  let* n := deref h p in
  match next_skip n with
  | None => Ok p
  | Some q =>
      let* nq := deref h q in
      if doc nq <=? bound then
        match fuel with
        | O => Err OutOfFuel
        | S fuel' => follow_skips fuel' h q bound
        end
      else Ok p
  end.

(** The whole statement [while ...: p = p.next_skip / else: p = p.next].
    The loop has no [break], so Python runs the [else] suite every time
    the loop is left: the cursor always moves one [next] further. *)
Definition skip_then_step (fuel : nat) (h : store) (p : addr) (bound : Z)
  : outcome (option addr) :=
  let* p' := follow_skips fuel h p bound in
  let* n' := deref h p' in
  Ok (next n').

(** One iteration of [while p1 != None and p2 != None], entered with both
    cursors on a node; [fuel] bounds the inner loops. *)
Definition merge_body (fuel : nat) (h1 h2 : store) (a1 a2 : addr)
    (result : list Z) : outcome (option addr * option addr * list Z) :=
  let* n1 := deref h1 a1 in
  let* n2 := deref h2 a2 in
  if doc n1 =? doc n2 then
    Ok (next n1, next n2, result ++ [doc n1])
  else if doc n1 <? doc n2 then
    let* p1 := skip_then_step fuel h1 a1 (doc n2) in
    Ok (p1, Some a2, result)
  else
    let* p2 := skip_then_step fuel h2 a2 (doc n1) in
    Ok (Some a1, p2, result).

Fixpoint merge_loop (fuel : nat) (h1 h2 : store) (p1 p2 : option addr)
    (result : list Z) : outcome (list Z) :=
  match p1, p2 with
  | Some a1, Some a2 =>
      match fuel with
      | O => Err OutOfFuel
      | S fuel' =>
          let* (ps, result') := merge_body fuel' h1 h2 a1 a2 result in
          merge_loop fuel' h1 h2 ps.1 ps.2 result'
      end
  | _, _ => Ok result
  end.

(** What [list(set(result))] may be: Python fixes the elements of the
    list, each once, and leaves their order to the implementation. *)
Definition set_listing (f : list Z → list Z) : Prop :=
  ∀ l, NoDup (f l) ∧ ∀ x, x ∈ f l ↔ x ∈ l.

(** ** Tokenisation: [re.split] with the pattern of [query]

    A text is a string of code points below 256, one per character. *)

(** [\s] on such code points: tab to carriage return, the four
    separators 28 to 31, space, NEL and the no-break space. *)
Definition is_space (c : ascii) : bool :=
  let n := nat_of_ascii c in
  ((9 <=? n) && (n <=? 13) || (28 <=? n) && (n <=? 32)
   || (n =? 133) || (n =? 160))%nat.

(** The class [[.!?\\-]]: full stop, exclamation mark, question mark,
    backslash and hyphen. *)
Definition is_punct (c : ascii) : bool :=
  let n := nat_of_ascii c in
  ((n =? 46) || (n =? 33) || (n =? 63) || (n =? 92) || (n =? 45))%nat.

Inductive regex :=
| Star (p : ascii → bool)
| Plus (p : ascii → bool)
| Seq (r1 r2 : regex)
| Alt (r1 r2 : regex).

(** Backtracking matcher: [k] is what has to match after the current
    piece, the value is the text left after the whole match.  A greedy
    repetition first tries to take one more character. *)
Fixpoint many (p : ascii → bool) (s : string) (k : string → option string)
  : option string :=
  match s with
  | String c s' =>
      if p c then
        match many p s' k with
        | Some r => Some r
        | None => k s
        end
      else k s
  | EmptyString => k s
  end.

Fixpoint rmatch (r : regex) (s : string) (k : string → option string)
  : option string :=
  match r with
  | Star p => many p s k
  | Plus p =>
      match s with
      | String c s' => if p c then many p s' k else None
      | EmptyString => None
      end
  | Seq r1 r2 => rmatch r1 s (λ s', rmatch r2 s' k)
  | Alt r1 r2 =>
      match rmatch r1 s k with
      | Some rest => Some rest
      | None => rmatch r2 s k
      end
  end.

(** The pattern of [re.split] in [query], a non-capturing group of three
    alternatives, in this order:
    [\s+], then [\s* [.!?\\-]+ \s+], then [\s+ [.!?\\-]+ \s*]
    (written here with blanks between the pieces). *)
Definition separator : regex :=
  Alt (Plus is_space)
    (Alt (Seq (Star is_space) (Seq (Plus is_punct) (Plus is_space)))
         (Seq (Plus is_space) (Seq (Plus is_punct) (Star is_space)))).

(** [re.split]: the pieces between successive leftmost matches; [cur]
    is the piece being read.  Every match of [separator] takes at least
    one character, so [fuel] equal to the length of the text is enough. *)
Fixpoint split_from (fuel : nat) (s : string) (cur : string) : list string :=
  match s with
  | EmptyString => [cur]
  | String c s' =>
      match fuel with
      | O => [cur]
      | S fuel' =>
          match rmatch separator s Some with
          | Some rest => cur :: split_from fuel' rest EmptyString
          | None => split_from fuel' s' (cur +:+ String c EmptyString)
          end
      end
  end.

Definition re_split (text : string) : list string :=
  split_from (String.length text) text EmptyString.

(** A [for] loop whose body may fail. *)
Fixpoint for_each {S A} (body : S → A → outcome S) (l : list A) (s : S)
  : outcome S :=
  match l with
  | [] => Ok s
  | x :: l' => let* s' := body s x in for_each body l' s'
  end.

Section Intersection.

(** The order in which this interpreter lists a set of integers. *)
Variable list_of_set : list Z → list Z.

Definition get_intersecting_documents (fuel : nat) (self other : PostingsList)
  : outcome (list Z) :=
  let* result :=
    merge_loop fuel (heap self) (heap other) (root self) (root other) [] in
  Ok (list_of_set result).

(** ** [PostingsList.form_intersection_with] *)
Definition form_intersection_with (fuel : nat) (self other : PostingsList)
  : outcome PostingsList :=
  let* intersecting_docs := get_intersecting_documents fuel self other in
  PostingsList_init intersecting_docs
    (heuristic_interval (length (docs self))).

(** ** [InvertedIndex.query] *)

(** Body of [for token in tokens]; [None] is the initial
    [intersection = None]. *)
Definition query_body (fuel : nat) (index : gmap string (list Z))
    (intersection : option PostingsList) (token : string)
  : outcome (option PostingsList) :=
  match index !! token with
  | None => Ok intersection
  | Some raw =>
      if bool_decide (token = EmptyString) then Ok intersection
      else
        let* postings_list :=
          PostingsList_init raw (heuristic_interval (length raw)) in
        match intersection with
        | Some acc =>
            let* r := form_intersection_with fuel acc postings_list in
            Ok (Some r)
        | None => Ok (Some postings_list)
        end
  end.

(** The loop of [query] over the tokens, and its final expression
    [intersection.docs if intersection else []] (a [PostingsList]
    defines neither [__bool__] nor [__len__], so it is true). *)
Definition and_fold (fuel : nat) (index : gmap string (list Z))
    (tokens : list string) : outcome (list Z) :=
  let* intersection := for_each (query_body fuel index) tokens None in
  Ok (match intersection with
      | Some pl => docs pl
      | None => []
      end).

Definition query (fuel : nat) (index : gmap string (list Z)) (text : string)
  : outcome (list Z) :=
  and_fold fuel index (re_split text).

End Intersection.

(** ** The merge the specification compares with

    A linear merge of the two chains that only follows [next]. *)
Definition naive_body (h1 h2 : store) (a1 a2 : addr) (result : list Z)
  : outcome (option addr * option addr * list Z) :=
  let* n1 := deref h1 a1 in
  let* n2 := deref h2 a2 in
  if doc n1 =? doc n2 then
    Ok (next n1, next n2, result ++ [doc n1])
  else if doc n1 <? doc n2 then Ok (next n1, Some a2, result)
  else Ok (Some a1, next n2, result).

Fixpoint naive_loop (fuel : nat) (h1 h2 : store) (p1 p2 : option addr)
    (result : list Z) : outcome (list Z) :=
  match p1, p2 with
  | Some a1, Some a2 =>
      match fuel with
      | O => Err OutOfFuel
      | S fuel' =>
          let* (ps, result') := naive_body h1 h2 a1 a2 result in
          naive_loop fuel' h1 h2 ps.1 ps.2 result'
      end
  | _, _ => Ok result
  end.

Definition naive_intersecting_documents (list_of_set : list Z → list Z)
    (fuel : nat) (self other : PostingsList) : outcome (list Z) :=
  let* result :=
    naive_loop fuel (heap self) (heap other) (root self) (root other) [] in
  Ok (list_of_set result).

(** A store without its skip links. *)
Definition strip_skips (h : store) : store :=
  (λ n, {| doc := doc n; next := next n; next_skip := None |}) <$> h.

Definition without_skips (pl : PostingsList) : PostingsList :=
  {| docs := docs pl; root := root pl; interval := interval pl;
     heap := strip_skips (heap pl) |}.

Local Close Scope Z_scope.

(** ** Tokens that enter the fold of [query] *)

Definition contributes (index : gmap string (list Z)) (token : string) : Prop :=
  is_Some (index !! token) ∧ token ≠ EmptyString.

#[global] Instance contributes_dec index token :
  Decision (contributes index token).
Proof. unfold contributes. apply _. Defined.

(** ** The shape of a constructed store *)

Definition next_of (n i : nat) : option addr :=
  if decide (S i < n) then Some (S i) else None.

Definition skip_of (n : nat) (itv : Z) (i : nat) : option addr :=
  if decide ((0 < itv)%Z ∧ i mod Z.to_nat itv = 0 ∧ i + Z.to_nat itv < n)
  then Some (i + Z.to_nat itv) else None.

(** After the first loop: node [i] holds [ds[i]] and points to [i+1]. *)
Definition linked (ds : list Z) (h : store) : Prop :=
  length h = length ds ∧
  ∀ i d, ds !! i = Some d →
    h !! i = Some (mkNode d (next_of (length ds) i) None).

(** After both loops. *)
Definition shaped (ds : list Z) (itv : Z) (h : store) : Prop :=
  length h = length ds ∧
  ∀ i d, ds !! i = Some d →
    h !! i = Some (mkNode d (next_of (length ds) i) (skip_of (length ds) itv i)).

(** A store whose [next] links run through the addresses in order and
    whose skip links point strictly forward, inside the store. *)
Definition forward (h : store) : Prop :=
  ∀ a n, h !! a = Some n →
    next n = next_of (length h) a ∧
    ∀ b, next_skip n = Some b → (a < b < length h).

(** The position of a cursor: its address, or the length of the chain
    once it has run off the end. *)
Definition position (h : store) (p : option addr) : nat :=
  match p with
  | Some a => a
  | None => length h
  end.

Definition in_chain (h : store) (p : option addr) : Prop :=
  (position h p ≤ length h) ∧ ∀ a, p = Some a → (a < length h).

(** ** Constructed lists *)

Definition constructed (pl : PostingsList) : Prop :=
  ∃ ds itv, PostingsList_init ds itv = Ok pl.

Definition constructed_opt (acc : option PostingsList) : Prop :=
  ∀ pl, acc = Some pl → constructed pl.

(** ** Inputs of the examples *)

Definition seven_ids : list Z := [10; 20; 30; 40; 50; 60; 70]%Z.

Definition five_ids : list Z := [1; 2; 3; 4; 5]%Z.

Definition cat_index : gmap string (list Z) :=
  {[ "cat"%string := [1; 2; 3]%Z ]}.

(** An index with the empty string as a key. *)
Definition empty_key_index : gmap string (list Z) :=
  {[ EmptyString := [2; 1]%Z ]}.

Definition x_index : gmap string (list Z) :=
  {[ "x"%string := [2; 1; 2]%Z ]}.

Definition scenario_index : gmap string (list Z) :=
  {[ "a"%string := [1; 2; 3; 4; 5; 6; 7; 8; 9]%Z;
     "b"%string := [2; 4; 6; 8; 10]%Z ]}.

(** ** Matches of a regular expression take characters *)

(** Whether every match of the expression takes at least one character. *)
Fixpoint nonempty (r : regex) : bool :=
  match r with
  | Star _ => false
  | Plus _ => true
  | Seq r1 r2 => nonempty r1 || nonempty r2
  | Alt r1 r2 => nonempty r1 && nonempty r2
  end.

(** [k] hands back a suffix that is at least [d] characters shorter. *)
Definition shortens (d : nat) (k : string → option string) : Prop :=
  ∀ s rest, k s = Some rest → String.length rest + d ≤ String.length s.

(** ** [index]: building the index from a file

    The file is given by the lines [readline] hands out, in order;
    [readline] answers the empty string at the end of the file, which is
    where the loop of [index] stops. *)

(** [\d] on code points below 256: the digits 0 to 9. *)
Definition is_digit (c : ascii) : bool :=
  let n := nat_of_ascii c in ((48 <=? n) && (n <=? 57))%nat.

Fixpoint starts_with_digits (n : nat) (s : string) : bool :=
  match n with
  | O => true
  | S n' =>
      match s with
      | String c s' => is_digit c && starts_with_digits n' s'
      | EmptyString => false
      end
  end.

(** [re.match(r"\d{7,}", token)]: the token begins with seven digits. *)
Definition long_number (token : string) : bool := starts_with_digits 7 token.

(** Body of [for token in tokens] in [index]. *)
Definition index_token (doc_id : Z) (idx : gmap string (list Z))
    (token : string) : gmap string (list Z) :=
  if bool_decide (token = EmptyString) then idx
  else if long_number token then idx
  else
    let idx' :=
      match idx !! token with
      | None => <[token := []]> idx
      | Some _ => idx
      end in
    <[token := default [] (idx' !! token) ++ [doc_id]]> idx'.

(** The loop [while tweet != ""] with its two variables. *)
Fixpoint index_lines (tweets : list string) (idx : gmap string (list Z))
    (doc_id : Z) : gmap string (list Z) :=
  match tweets with
  | [] => idx
  | tweet :: rest =>
      if bool_decide (tweet = EmptyString) then idx
      else
        index_lines rest
          (fold_left (index_token doc_id) (re_split tweet) idx)
          (doc_id + 1)%Z
  end.

Definition index (tweets : list string) : gmap string (list Z) :=
  index_lines tweets ∅ 0%Z.

(** ** Notions used to describe tokens and indexes *)

(** The number of whitespace characters of a text. *)
Fixpoint spaces (s : string) : nat :=
  match s with
  | EmptyString => 0
  | String c s' => (if is_space c then 1 else 0) + spaces s'
  end.

(** [k] hands back a suffix with at least [d] whitespace characters less. *)
Definition sheds (d : nat) (k : string → option string) : Prop :=
  ∀ s rest, k s = Some rest → spaces rest + d ≤ spaces s.

(** Every match of the expression takes a whitespace character. *)
Fixpoint takes_space (r : regex) : Prop :=
  match r with
  | Star _ => False
  | Plus p => ∀ c, p c = true → is_space c = true
  | Seq r1 r2 => takes_space r1 ∨ takes_space r2
  | Alt r1 r2 => takes_space r1 ∧ takes_space r2
  end.

(** The tokens [index] files a line under. *)
Definition indexable (token : string) : Prop :=
  token ≠ EmptyString ∧ long_number token = false.

#[global] Instance indexable_dec token : Decision (indexable token).
Proof. unfold indexable. apply _. Defined.

(** How often a line holds a token. *)
Definition occurrences (token : string) (tweet : string) : nat :=
  length (filter (λ t, t = token) (re_split tweet)).

(** The ids of a token. *)
Definition entry (idx : gmap string (list Z)) (token : string) : list Z :=
  default [] (idx !! token).

(** The lines [index] reads: those before the first empty answer of
    [readline]. *)
Fixpoint lines_read (tweets : list string) : list string :=
  match tweets with
  | [] => []
  | tweet :: rest =>
      if bool_decide (tweet = EmptyString) then [] else tweet :: lines_read rest
  end.

(** Line numbers from [doc_id] on, each as often as its line holds the
    token. *)
Fixpoint postings (token : string) (tweets : list string) (doc_id : Z)
  : list Z :=
  match tweets with
  | [] => []
  | tweet :: rest =>
      replicate (occurrences token tweet) doc_id
        ++ postings token rest (doc_id + 1)%Z
  end.

(** No token is filed under an empty list. *)
Definition clean (idx : gmap string (list Z)) : Prop :=
  ∀ token, idx !! token ≠ Some [].

(** A file of two lines, each ended by a line feed. *)
Definition two_tweets : list string :=
  ["12345678 peanut butter" +:+ String "010" EmptyString;
   "walnut - peanut peanut" +:+ String "010" EmptyString]%string.

(** What [query] returns for the running intersection it ends with. *)
Definition result_docs (acc : option PostingsList) : list Z :=
  match acc with
  | Some pl => docs pl
  | None => []
  end.

(** The cursor on position [a] of a chain of [n] nodes. *)
Definition cursor (n a : nat) : option addr :=
  if decide (a < n) then Some a else None.

(** The linear merge on lists of ids. *)
Fixpoint lmerge (l1 : list Z) : list Z → list Z :=
  fix aux (l2 : list Z) : list Z :=
    match l1, l2 with
    | x :: l1', y :: l2' =>
        if (x =? y)%Z then x :: lmerge l1' l2'
        else if (x <? y)%Z then lmerge l1' l2
        else aux l2'
    | _, _ => []
    end.

(** * Construction *)

Lemma bind_Ok {A B} (m : outcome A) (k : A → outcome B) b :
  bind m k = Ok b ↔ ∃ a, m = Ok a ∧ k a = Ok b.
Proof.
  destruct m; simpl; split.
  - eauto.
  - by intros (? & [= ->] & ?).
  - done.
  - by intros (? & ? & ?).
Qed.

Lemma linked_single d : linked [d] [PostingsListNode_init d].
Proof.
  split; [done|]. intros [|i] d'; simpl; [|done].
  by intros [= ->].
Qed.

Lemma linked_snoc ds h d :
  ds ≠ [] → linked ds h →
  linked (ds ++ [d])
    (set_next (length ds - 1) (length h) (h ++ [PostingsListNode_init d])).
Proof.
  intros Hne [Hlen Hlk]. unfold set_next.
  assert (0 < length ds) by (destruct ds; simpl; [done|lia]).
  split.
  { rewrite length_alter, !length_app. simpl. lia. }
  intros i d' Hi. rewrite length_app. simpl.
  assert (i < length ds + 1) as Hlt.
  { apply lookup_lt_Some in Hi. by rewrite length_app in Hi. }
  destruct (decide (i = length ds - 1)) as [->|Hne1].
  - rewrite list_lookup_alter_eq.
    rewrite lookup_app_l in Hi by lia.
    rewrite lookup_app_l by lia.
    rewrite (Hlk _ _ Hi). simpl. unfold next_of.
    repeat case_decide; try lia. do 3 f_equal. lia.
  - rewrite list_lookup_alter_ne by done.
    destruct (decide (i < length ds)).
    + rewrite lookup_app_l in Hi by lia.
      rewrite lookup_app_l by lia.
      rewrite (Hlk _ _ Hi). unfold next_of.
      repeat case_decide; try lia; done.
    + assert (i = length ds) as -> by lia.
      rewrite lookup_app_r in Hi by lia.
      rewrite lookup_app_r by lia.
      rewrite Hlen. replace (length ds - length ds) with 0 in * by lia.
      simpl in *. injection Hi as <-. unfold next_of.
      case_decide; [lia|done].
Qed.

Lemma link_nodes_linked rest : ∀ ds h,
  ds ≠ [] → linked ds h →
  ∃ h' c, fold_left link_node rest (h, (length ds - 1)) = (h', c)
          ∧ linked (ds ++ rest) h'.
Proof.
  induction rest as [|d rest IH]; intros ds h Hne Hl.
  - exists h, (length ds - 1). by rewrite app_nil_r.
  - simpl.
    destruct (IH (ds ++ [d])
                (set_next (length ds - 1) (length h)
                   (h ++ [PostingsListNode_init d])))
      as (h' & c & Hf & Hl').
    + by destruct ds.
    + by apply linked_snoc.
    + exists h', c. rewrite <- (assoc_L _ ds [d] rest) in Hl'. split; [|done].
      rewrite <- Hf. do 3 f_equal.
      rewrite length_app. simpl. destruct Hl as [-> _]. lia.
Qed.

Lemma elem_of_py_range stop step l i :
  (0 < step)%Z → py_range stop step = Ok l →
  i ∈ l ↔ i mod Z.to_nat step = 0 ∧ i < stop.
Proof.
  intros Hpos. unfold py_range.
  destruct (Z.eqb_spec step 0) as [|_]; [lia|].
  destruct (Z.ltb_spec step 0) as [|_]; [lia|].
  intros [= <-]. set (k := Z.to_nat step).
  assert (0 < k) as Hk by lia.
  rewrite list_elem_of_fmap. setoid_rewrite elem_of_seq. split.
  - intros (j & -> & _ & Hj). simpl in Hj. split.
    + by apply Nat.Div0.mod_mul.
    + destruct (decide (j * k < stop)) as [|Hge]; [done|].
      assert ((stop + k - 1) / k < j + 1); [|lia].
      apply Nat.Div0.div_lt_upper_bound. nia.
  - intros [Hmod Hlt]. exists (i / k). split.
    + pose proof (Nat.div_mod_eq i k). lia.
    + split; [lia|]. simpl.
      pose proof (Nat.div_mod_eq i k).
      assert (i / k + 1 ≤ (stop + k - 1) / k); [|lia].
      apply Nat.div_le_lower_bound; [lia|]. nia.
Qed.

Lemma place_skips_length k positions : ∀ h,
  length (fold_left (place_skip k) positions h) = length h.
Proof.
  induction positions as [|i positions IH]; intros h; simpl; [done|].
  rewrite IH. unfold place_skip, set_next_skip.
  case_bool_decide; [by rewrite length_alter|done].
Qed.

Lemma place_skips_lookup k positions : ∀ h j n,
  h !! j = Some n →
  fold_left (place_skip k) positions h !! j =
    Some (if decide (j ∈ positions ∧ j + k < length h)
          then mkNode (doc n) (next n) (Some (j + k)) else n).
Proof.
  induction positions as [|i positions IH]; intros h j n Hj; cbn [fold_left].
  { by rewrite Hj. }
  assert (length (place_skip k h i) = length h) as Hlen.
  { unfold place_skip, set_next_skip.
    case_bool_decide; [by rewrite length_alter|done]. }
  unfold place_skip, set_next_skip in *.
  case_bool_decide as Hik.
  - destruct (decide (i = j)) as [->|Hne].
    + erewrite IH; [|by rewrite list_lookup_alter_eq, Hj].
      rewrite Hlen. simpl.
      repeat case_decide; try done; exfalso;
        rewrite ?elem_of_cons in *; intuition lia.
    + erewrite IH; [|by rewrite list_lookup_alter_ne].
      rewrite Hlen.
      repeat case_decide; try done; exfalso;
        rewrite ?elem_of_cons in *; intuition lia.
  - erewrite IH by done.
    repeat case_decide; try done; exfalso;
      rewrite ?elem_of_cons in *; intuition lia.
Qed.

(** What [create_postings_list] leaves in the store. *)
Lemma create_postings_list_shaped itv ds r h :
  create_postings_list itv ds = Ok (r, h) →
  r = (if ds is [] then None else Some 0) ∧ shaped ds itv h.
Proof.
  destruct ds as [|d0 rest]; simpl.
  { intros [= <- <-]. split; [done|]. split; [done|]. by intros i d. }
  destruct (link_nodes_linked rest [d0] [PostingsListNode_init d0])
    as (h1 & c & Hf & [Hlen Hlk]); [done|apply linked_single|].
  simpl in Hf, Hlen, Hlk. rewrite Hf.
  intros (positions & Hr & [= <- <-])%bind_Ok. split; [done|].
  split; [by rewrite place_skips_length|].
  intros i d Hi. erewrite place_skips_lookup by eauto.
  simpl. f_equal. unfold skip_of. rewrite Hlen. simpl.
  assert (itv ≠ 0%Z) as Hnz.
  { intros ->. by unfold py_range in Hr. }
  destruct (decide (0 < itv)%Z) as [Hpos|Hneg].
  - rewrite (decide_ext _ _ _ _
      (and_iff_compat_r _ (elem_of_py_range _ _ _ i Hpos Hr))).
    repeat case_decide; try done; exfalso.
    + apply lookup_lt_Some in Hi. simpl in Hi. intuition lia.
    + intuition lia.
  - assert (positions = []) as ->.
    { unfold py_range in Hr. destruct (Z.eqb_spec itv 0); [done|].
      destruct (Z.ltb_spec itv 0); [congruence|lia]. }
    repeat case_decide; try done; exfalso.
    + rewrite elem_of_nil in *. tauto.
    + intuition lia.
Qed.

Lemma PostingsList_init_shaped ds itv pl :
  PostingsList_init ds itv = Ok pl →
  docs pl = sorted ds ∧ interval pl = itv
  ∧ root pl = (if ds is [] then None else Some 0)
  ∧ shaped ds itv (heap pl).
Proof.
  unfold PostingsList_init.
  intros ([r h] & Hc & [= <-])%bind_Ok. simpl.
  by apply create_postings_list_shaped in Hc as [-> ?].
Qed.

(** The constructor fails only on a zero interval with a non-empty input. *)
Lemma PostingsList_init_Ok ds itv :
  itv ≠ 0%Z ∨ ds = [] → ∃ pl, PostingsList_init ds itv = Ok pl.
Proof.
  intros H. unfold PostingsList_init, create_postings_list.
  destruct ds as [|d0 rest]; [by eexists|].
  destruct (fold_left link_node rest _) as [h1 c].
  destruct H as [H|]; [|done]. unfold py_range.
  destruct (Z.eqb_spec itv 0); [done|].
  destruct (itv <? 0)%Z; by eexists.
Qed.

Lemma shaped_forward ds itv h : shaped ds itv h → forward h.
Proof.
  intros [Hlen Hsh] a n Ha.
  assert (a < length ds) as Hlt by (rewrite <- Hlen; by eapply lookup_lt_Some).
  destruct (lookup_lt_is_Some_2 ds a Hlt) as [d Hd].
  rewrite (Hsh _ _ Hd) in Ha. injection Ha as <-. simpl.
  rewrite Hlen. split; [done|].
  intros b. unfold skip_of. case_decide as Hc; [|done].
  intros [= <-]. lia.
Qed.

(** * Termination of the merge *)

Lemma deref_lt (h : store) a :
  a < length h → ∃ n, h !! a = Some n ∧ deref h a = Ok n.
Proof.
  intros [n Hn]%lookup_lt_is_Some_2. exists n. unfold deref. by rewrite Hn.
Qed.

Lemma follow_skips_forward h bound :
  forward h → ∀ fuel a,
  a < length h → length h - a ≤ fuel →
  ∃ p, follow_skips fuel h a bound = Ok p ∧ a ≤ p < length h.
Proof.
  intros Hf. induction fuel as [|fuel IH]; intros a Ha Hfuel; [lia|].
  destruct (deref_lt h a Ha) as (n & Hn & Hd).
  cbn [follow_skips]. rewrite Hd. cbn [bind].
  destruct (next_skip n) as [q|] eqn:Hq; [|exists a; split; [done|lia]].
  destruct (Hf _ _ Hn) as [_ Hsk]. specialize (Hsk _ Hq).
  destruct (deref_lt h q) as (nq & _ & ->); [lia|]. cbn [bind].
  destruct (doc nq <=? bound)%Z; [|exists a; split; [done|lia]].
  destruct (IH q) as (p & -> & ?); [lia..|].
  exists p. split; [done|lia].
Qed.

Lemma in_chain_next h a n :
  forward h → h !! a = Some n →
  in_chain h (next n) ∧ a < position h (next n).
Proof.
  intros Hf Hn. destruct (Hf _ _ Hn) as [-> _].
  apply lookup_lt_Some in Hn. unfold next_of, in_chain.
  case_decide; simpl.
  - split; [split; [lia|]|lia]. intros ? [= <-]. lia.
  - split; [split; [lia|done]|lia].
Qed.

Lemma skip_then_step_forward h bound fuel a :
  forward h → a < length h → length h - a ≤ fuel →
  ∃ c, skip_then_step fuel h a bound = Ok c
       ∧ in_chain h c ∧ a < position h c.
Proof.
  intros Hf Ha Hfuel. unfold skip_then_step.
  destruct (follow_skips_forward h bound Hf fuel a) as (p & -> & Hp);
    [done..|].
  cbn [bind]. destruct (deref_lt h p) as (n & Hn & ->); [lia|]. cbn [bind].
  exists (next n). split; [done|].
  destruct (in_chain_next h p n Hf Hn). split; [done|lia].
Qed.

Lemma merge_body_forward h1 h2 fuel a1 a2 result :
  forward h1 → forward h2 →
  a1 < length h1 → a2 < length h2 →
  length h1 - a1 ≤ fuel → length h2 - a2 ≤ fuel →
  ∃ p1 p2 result',
    merge_body fuel h1 h2 a1 a2 result = Ok (p1, p2, result')
    ∧ in_chain h1 p1 ∧ in_chain h2 p2
    ∧ a1 ≤ position h1 p1 ∧ a2 ≤ position h2 p2
    ∧ a1 + a2 < position h1 p1 + position h2 p2.
Proof.
  intros Hf1 Hf2 Ha1 Ha2 Hfuel1 Hfuel2. unfold merge_body.
  destruct (deref_lt h1 a1 Ha1) as (n1 & Hn1 & ->).
  destruct (deref_lt h2 a2 Ha2) as (n2 & Hn2 & ->). cbn [bind].
  destruct (doc n1 =? doc n2)%Z.
  { destruct (in_chain_next h1 a1 n1) as [? ?]; [done..|].
    destruct (in_chain_next h2 a2 n2) as [? ?]; [done..|].
    eexists _, _, _. split; [done|]. split_and!; try done; lia. }
  destruct (doc n1 <? doc n2)%Z.
  - destruct (skip_then_step_forward h1 (doc n2) fuel a1)
      as (c & -> & Hc & Hlt); [done..|].
    cbn [bind]. eexists _, _, _. split; [done|].
    split_and!; simpl; try done; try lia. split; [simpl; lia|].
    by intros ? [= <-].
  - destruct (skip_then_step_forward h2 (doc n1) fuel a2)
      as (c & -> & Hc & Hlt); [done..|].
    cbn [bind]. eexists _, _, _. split; [done|].
    split_and!; simpl; try done; try lia. split; [simpl; lia|].
    by intros ? [= <-].
Qed.

Lemma merge_loop_forward h1 h2 :
  forward h1 → forward h2 → ∀ fuel p1 p2 result,
  in_chain h1 p1 → in_chain h2 p2 →
  (length h1 - position h1 p1) + (length h2 - position h2 p2) ≤ fuel →
  ∃ r, merge_loop fuel h1 h2 p1 p2 result = Ok r.
Proof.
  intros Hf1 Hf2.
  induction fuel as [|fuel IH]; intros p1 p2 result Hp1 Hp2 Hfuel.
  - destruct p1 as [a1|], p2 as [a2|]; simpl; eauto.
    destruct Hp1 as [_ Hp1], Hp2 as [_ Hp2].
    specialize (Hp1 _ eq_refl). specialize (Hp2 _ eq_refl).
    simpl in Hfuel. lia.
  - destruct p1 as [a1|], p2 as [a2|]; simpl; eauto.
    pose proof (proj2 Hp1 _ eq_refl). pose proof (proj2 Hp2 _ eq_refl).
    simpl in Hfuel.
    destruct (merge_body_forward h1 h2 fuel a1 a2 result)
      as (p1' & p2' & r' & -> & Hc1 & Hc2 & ? & ? & ?); [done..|lia|lia|].
    cbn [bind fst snd]. apply IH; [done..|].
    destruct Hc1 as [? _], Hc2 as [? _]. lia.
Qed.

(** ** More fuel never changes an answer *)

Lemma follow_skips_mono h bound : ∀ fuel fuel' a p,
  follow_skips fuel h a bound = Ok p → fuel ≤ fuel' →
  follow_skips fuel' h a bound = Ok p.
Proof.
  induction fuel as [|fuel IH]; intros fuel' a p.
  - destruct fuel'; [done|]. cbn [follow_skips].
    destruct (deref h a) as [n|]; [|done]. cbn [bind].
    destruct (next_skip n) as [q|]; [|done].
    destruct (deref h q) as [nq|]; [|done]. cbn [bind].
    by destruct (doc nq <=? bound)%Z.
  - destruct fuel'; [lia|]. cbn [follow_skips].
    destruct (deref h a) as [n|]; [|done]. cbn [bind].
    destruct (next_skip n) as [q|]; [|done].
    destruct (deref h q) as [nq|]; [|done]. cbn [bind].
    destruct (doc nq <=? bound)%Z; [|done].
    intros ? ?. apply IH; [done|lia].
Qed.

Lemma skip_then_step_mono h bound fuel fuel' a c :
  skip_then_step fuel h a bound = Ok c → fuel ≤ fuel' →
  skip_then_step fuel' h a bound = Ok c.
Proof.
  unfold skip_then_step. intros (p & Hp & Hk)%bind_Ok Hle.
  by rewrite (follow_skips_mono _ _ _ _ _ _ Hp Hle).
Qed.

Lemma merge_body_mono h1 h2 fuel fuel' a1 a2 result st :
  merge_body fuel h1 h2 a1 a2 result = Ok st → fuel ≤ fuel' →
  merge_body fuel' h1 h2 a1 a2 result = Ok st.
Proof.
  unfold merge_body. intros H Hle.
  destruct (deref h1 a1) as [n1|]; [|done].
  destruct (deref h2 a2) as [n2|]; [|done]. cbn [bind] in *.
  destruct (doc n1 =? doc n2)%Z; [done|].
  destruct (doc n1 <? doc n2)%Z.
  - apply bind_Ok in H as (c & Hc & Hk).
    by rewrite (skip_then_step_mono _ _ _ _ _ _ Hc Hle).
  - apply bind_Ok in H as (c & Hc & Hk).
    by rewrite (skip_then_step_mono _ _ _ _ _ _ Hc Hle).
Qed.

Lemma merge_loop_mono h1 h2 : ∀ fuel fuel' p1 p2 result r,
  merge_loop fuel h1 h2 p1 p2 result = Ok r → fuel ≤ fuel' →
  merge_loop fuel' h1 h2 p1 p2 result = Ok r.
Proof.
  induction fuel as [|fuel IH]; intros fuel' p1 p2 result r H Hle.
  - destruct p1, p2; simpl in H; try done; by destruct fuel'.
  - destruct fuel'; [lia|].
    destruct p1 as [a1|], p2 as [a2|]; try done.
    cbn [merge_loop] in *.
    apply bind_Ok in H as ([[p1' p2'] r'] & Hb & Hl).
    rewrite (merge_body_mono _ _ _ fuel' _ _ _ _ Hb) by lia.
    cbn [bind]. apply (IH fuel') in Hl; [done|lia].
Qed.

(** ** The two cursors play the same part *)

Lemma merge_body_swap fuel h1 h2 a1 a2 result :
  merge_body fuel h2 h1 a2 a1 result =
  let* (ps, r) := merge_body fuel h1 h2 a1 a2 result in Ok (ps.2, ps.1, r).
Proof.
  unfold merge_body, deref.
  destruct (h1 !! a1) as [n1|], (h2 !! a2) as [n2|]; cbn [bind]; try done.
  rewrite (Z.eqb_sym (doc n2) (doc n1)).
  destruct (Z.eqb_spec (doc n1) (doc n2)) as [->|Hne]; [done|].
  destruct (Z.ltb_spec (doc n1) (doc n2)), (Z.ltb_spec (doc n2) (doc n1));
    try lia.
  - by destruct (skip_then_step fuel h1 a1 (doc n2)).
  - by destruct (skip_then_step fuel h2 a2 (doc n1)).
Qed.

Lemma merge_loop_swap h1 h2 : ∀ fuel p1 p2 result,
  merge_loop fuel h2 h1 p2 p1 result = merge_loop fuel h1 h2 p1 p2 result.
Proof.
  induction fuel as [|fuel IH]; intros [a1|] [a2|] result; try done.
  cbn [merge_loop]. rewrite merge_body_swap.
  destruct (merge_body fuel h1 h2 a1 a2 result) as [[[p1 p2] r]|]; [|done].
  cbn [bind fst snd]. apply IH.
Qed.

Lemma get_intersecting_documents_swap list_of_set fuel (A B : PostingsList) :
  get_intersecting_documents list_of_set fuel B A =
  get_intersecting_documents list_of_set fuel A B.
Proof. unfold get_intersecting_documents. by rewrite merge_loop_swap. Qed.

(** ** Constructed lists *)

Lemma constructed_forward pl :
  constructed pl → forward (heap pl) ∧ in_chain (heap pl) (root pl).
Proof.
  intros (ds & itv & (_ & _ & Hr & Hs)%PostingsList_init_shaped).
  split; [by eapply shaped_forward|].
  rewrite Hr. destruct Hs as [Hlen _]. unfold in_chain.
  destruct ds; simpl in *.
  - split; [lia|done].
  - split; [lia|]. intros ? [= <-]. lia.
Qed.

Lemma get_intersecting_documents_total list_of_set A B fuel :
  constructed A → constructed B →
  length (heap A) + length (heap B) ≤ fuel →
  ∃ r, get_intersecting_documents list_of_set fuel A B = Ok r.
Proof.
  intros [HfA HcA]%constructed_forward [HfB HcB]%constructed_forward Hfuel.
  unfold get_intersecting_documents.
  destruct (merge_loop_forward _ _ HfA HfB fuel (root A) (root B) [])
    as [r ->]; [done..|lia|].
  by eexists.
Qed.

Lemma get_intersecting_documents_mono list_of_set A B fuel fuel' r :
  get_intersecting_documents list_of_set fuel A B = Ok r → fuel ≤ fuel' →
  get_intersecting_documents list_of_set fuel' A B = Ok r.
Proof.
  unfold get_intersecting_documents.
  intros (raw & Hraw & Hk)%bind_Ok Hle.
  by rewrite (merge_loop_mono _ _ _ _ _ _ _ _ Hraw Hle).
Qed.

(** ** Walking a constructed chain *)

Lemma chain_at_forward h : forward h → ∀ i a,
  a < length h →
  chain_at h (Some a) i = if decide (a + i < length h) then Some (a + i) else None.
Proof.
  intros Hf. induction i as [|i IH]; intros a Ha; cbn [chain_at].
  { rewrite decide_True by lia. f_equal. lia. }
  destruct (lookup_lt_is_Some_2 h a Ha) as [n Hn]. rewrite Hn. simpl.
  destruct (Hf _ _ Hn) as [-> _]. unfold next_of. case_decide.
  - rewrite IH by done. repeat case_decide; try lia; try done. f_equal. lia.
  - destruct i; simpl; by rewrite decide_False by lia.
Qed.

Lemma chain_docs_shaped ds itv h : shaped ds itv h → ∀ fuel a,
  chain_docs fuel h (Some a) = take fuel (drop a ds).
Proof.
  intros [Hlen Hsh]. induction fuel as [|fuel IH]; intros a; [done|].
  cbn [chain_docs]. destruct (ds !! a) as [d|] eqn:Hd.
  - rewrite (Hsh _ _ Hd). simpl. rewrite (drop_S _ _ _ Hd). simpl. f_equal.
    unfold next_of. case_decide; [apply IH|].
    rewrite drop_ge by lia. by destruct fuel.
  - apply lookup_ge_None in Hd. rewrite drop_ge by done.
    rewrite (proj2 (lookup_ge_None h a)) by lia. done.
Qed.

(** The chain of a constructed list visits the input as it was passed. *)
Lemma chain_docs_input ds itv pl :
  PostingsList_init ds itv = Ok pl →
  chain_docs (length ds) (heap pl) (root pl) = ds.
Proof.
  intros (_ & _ & -> & Hs)%PostingsList_init_shaped.
  destruct ds as [|d ds]; [done|].
  rewrite (chain_docs_shaped _ _ _ Hs). by rewrite drop_0, firstn_all.
Qed.

(** ** [sorted] *)

Lemma sorted_Sorted l : Sorted Z.le (sorted l).
Proof. apply Sorted_merge_sort. apply _. Qed.

Lemma sorted_Permutation l : sorted l ≡ₚ l.
Proof. apply merge_sort_Permutation. Qed.

Lemma sorted_unique l1 l2 : l1 ≡ₚ l2 → sorted l1 = sorted l2.
Proof.
  intros Hp. apply (Sorted_unique Z.le); [apply sorted_Sorted..|].
  by rewrite !sorted_Permutation.
Qed.

Lemma sorted_id l : Sorted Z.le l → sorted l = l.
Proof.
  intros Hs. apply (Sorted_unique Z.le);
    [apply sorted_Sorted|done|apply sorted_Permutation].
Qed.

Lemma set_listing_NoDup f l : set_listing f → NoDup l → f l ≡ₚ l.
Proof.
  intros Hf Hl. destruct (Hf l) as [Hnd Hin]. by apply NoDup_Permutation.
Qed.

Lemma set_listing_nil f : set_listing f → f [] = [].
Proof.
  intros Hf. apply Permutation_nil_r, set_listing_NoDup; [done|constructor].
Qed.

(** [remove_dups] is one possible listing. *)
Lemma set_listing_remove_dups : set_listing remove_dups.
Proof.
  intros l. split; [apply NoDup_remove_dups|].
  intros x. apply elem_of_remove_dups.
Qed.

Lemma heuristic_interval_ge n : (3 ≤ heuristic_interval n)%Z.
Proof.
  unfold heuristic_interval, int_sqrt.
  destruct (Z.leb_spec 9 (Z.of_nat n)); [|done].
  change 3%Z with (Z.sqrt 9). by apply Z.sqrt_le_mono.
Qed.

Lemma PostingsList_init_length ds itv pl :
  PostingsList_init ds itv = Ok pl →
  length (heap pl) = length ds ∧ length (docs pl) = length ds.
Proof.
  intros (-> & _ & _ & [Hlen _])%PostingsList_init_shaped.
  split; [done|]. by rewrite sorted_Permutation.
Qed.

(** * Construction: chain order and skip placement *)

(** C2: the constructor keeps [docs] as the ascending sort of its input,
    and the chain is specified to visit those same values in that same
    order.  On the input [3, 1, 2] the constructed list has [docs] equal
    to [1, 2, 3], while the chain from [root] visits 3, 1, 2: the chain
    is built from the argument as passed, not from the sorted [docs]. *)
Theorem chain_built_from_unsorted_input :
  ∃ pl, PostingsList_init [3; 1; 2]%Z 3 = Ok pl
        ∧ docs pl = [1; 2; 3]%Z
        ∧ chain_docs 3 (heap pl) (root pl) = [3; 1; 2]%Z
        ∧ chain_docs 3 (heap pl) (root pl) ≠ docs pl.
Proof. eexists. by vm_compute. Qed.

(** C4: in a list constructed from [n] ids with a positive interval [k],
    the node at chain position [i] (reached from [root] by [i] steps of
    [next]) carries a skip link exactly when [i mod k = 0] and
    [i + k < n]; the link then leads to the node at chain position
    [i + k].  In particular no node carries a link whose target would
    lie outside the chain, and there is no node at positions [n] and
    beyond. *)
Theorem skip_placement ds k pl :
  (0 < k)%Z → PostingsList_init ds k = Ok pl →
  ∀ i,
    (i < length ds →
     ∃ a node,
       chain_at (heap pl) (root pl) i = Some a
       ∧ heap pl !! a = Some node
       ∧ (is_Some (next_skip node) ↔
            (Z.of_nat i mod k = 0)%Z
            ∧ (Z.of_nat i + k < Z.of_nat (length ds))%Z)
       ∧ (∀ t, next_skip node = Some t →
            chain_at (heap pl) (root pl) (i + Z.to_nat k) = Some t))
    ∧ (length ds ≤ i → chain_at (heap pl) (root pl) i = None).
Proof.
  intros Hk (_ & _ & Hr & Hs)%PostingsList_init_shaped i.
  pose proof (shaped_forward _ _ _ Hs) as Hf.
  destruct Hs as [Hlen Hsh]. split.
  - intros Hi.
    assert (root pl = Some 0) as ->.
    { rewrite Hr. destruct ds; [simpl in Hi; lia|done]. }
    destruct (lookup_lt_is_Some_2 ds i Hi) as [d Hd].
    exists i, (mkNode d (next_of (length ds) i) (skip_of (length ds) k i)).
    split_and!.
    + rewrite chain_at_forward by (done || lia).
      rewrite decide_True by lia. done.
    + by apply Hsh.
    + simpl. unfold skip_of. case_decide as Hc.
      * split; [intros _|by eexists].
        destruct Hc as (_ & Hmod & Hlt). split; [|lia].
        apply (f_equal Z.of_nat) in Hmod.
        rewrite Nat2Z.inj_mod, Z2Nat.id in Hmod by lia. done.
      * split; [by intros [? [=]]|]. intros [Hmod Hlt]. exfalso. apply Hc.
        split_and!; [done| |lia].
        apply Nat2Z.inj. rewrite Nat2Z.inj_mod, Z2Nat.id by lia. done.
    + simpl. intros t. unfold skip_of. case_decide as Hc; [|done].
      intros [= <-]. rewrite chain_at_forward by (done || lia).
      rewrite decide_True by lia. done.
  - intros Hi. rewrite Hr. destruct ds as [|d0 ds']; [by destruct i|].
    rewrite chain_at_forward by (done || simpl in *; lia).
    rewrite decide_False by lia. done.
Qed.

Lemma skip_placement_witness :
  ∃ pl, PostingsList_init seven_ids 3 = Ok pl ∧
  ∀ i,
    (i < length seven_ids →
     ∃ a node,
       chain_at (heap pl) (root pl) i = Some a
       ∧ heap pl !! a = Some node
       ∧ (is_Some (next_skip node) ↔
            (Z.of_nat i mod 3 = 0)%Z
            ∧ (Z.of_nat i + 3 < Z.of_nat (length seven_ids))%Z)
       ∧ (∀ t, next_skip node = Some t →
            chain_at (heap pl) (root pl) (i + Z.to_nat 3) = Some t))
    ∧ (length seven_ids ≤ i → chain_at (heap pl) (root pl) i = None).
Proof.
  eexists. split; [vm_compute; reflexivity|].
  apply (skip_placement seven_ids 3); [lia|vm_compute; reflexivity].
Defined.

(** * The merge *)

(** C9: for two constructed lists every iteration of the cursor loop,
    entered with both cursors on a node, ends with cursors that have not
    moved back and of which at least one has moved strictly forward
    along its chain; and the whole function returns a list as soon as
    the fuel covers the two chain lengths. *)
Theorem merge_terminates list_of_set ds1 k1 ds2 k2 A B :
  PostingsList_init ds1 k1 = Ok A → PostingsList_init ds2 k2 = Ok B →
  (∀ fuel a1 a2 result,
     a1 < length ds1 → a2 < length ds2 →
     length ds1 + length ds2 ≤ fuel →
     ∃ p1 p2 result',
       merge_body fuel (heap A) (heap B) a1 a2 result = Ok (p1, p2, result')
       ∧ a1 ≤ position (heap A) p1 ≤ length ds1
       ∧ a2 ≤ position (heap B) p2 ≤ length ds2
       ∧ a1 + a2 < position (heap A) p1 + position (heap B) p2)
  ∧ (∀ fuel, length ds1 + length ds2 ≤ fuel →
       ∃ r, get_intersecting_documents list_of_set fuel A B = Ok r).
Proof.
  intros HA HB.
  destruct (PostingsList_init_length _ _ _ HA) as [HlA _].
  destruct (PostingsList_init_length _ _ _ HB) as [HlB _].
  assert (constructed A) as HcA by by eexists _, _.
  assert (constructed B) as HcB by by eexists _, _.
  split.
  - intros fuel a1 a2 result Ha1 Ha2 Hfuel.
    destruct (constructed_forward _ HcA) as [HfA _].
    destruct (constructed_forward _ HcB) as [HfB _].
    destruct (merge_body_forward (heap A) (heap B) fuel a1 a2 result)
      as (p1 & p2 & r' & Hb & [H1 _] & [H2 _] & ? & ? & ?);
      [done|done|lia..|].
    exists p1, p2, r'. rewrite <- HlA, <- HlB. split_and!; done.
  - intros fuel Hfuel. apply get_intersecting_documents_total; [done..|lia].
Qed.

Lemma merge_terminates_witness :
  ∃ A B,
    PostingsList_init seven_ids 3 = Ok A ∧ PostingsList_init [40; 70]%Z 3 = Ok B
    ∧ ∃ r, get_intersecting_documents remove_dups 9 A B = Ok r.
Proof.
  eexists _, _. split; [vm_compute; reflexivity|].
  split; [vm_compute; reflexivity|].
  eapply (merge_terminates remove_dups seven_ids 3 [40; 70]%Z 3);
    [vm_compute; reflexivity|vm_compute; reflexivity|simpl; lia].
Defined.

(** C8: for two constructed lists, intersecting [A] with [B] and [B]
    with [A] return the same list. *)
Theorem get_intersecting_documents_comm list_of_set A B fuel :
  constructed A → constructed B →
  length (heap A) + length (heap B) ≤ fuel →
  ∃ r, get_intersecting_documents list_of_set fuel A B = Ok r
       ∧ get_intersecting_documents list_of_set fuel B A = Ok r.
Proof.
  intros HA HB Hfuel.
  destruct (get_intersecting_documents_total list_of_set A B fuel)
    as [r Hr]; [done..|].
  exists r. split; [done|].
  by rewrite (get_intersecting_documents_swap _ _ A B).
Qed.

(** C7: [form_intersection_with] on two constructed lists returns a list
    whose interval is the integer square root of [len(self.docs)] when
    that length is at least 9, and 3 otherwise; neither [other] nor the
    intersection enters the formula. *)
Theorem form_intersection_with_interval list_of_set self other fuel :
  constructed self → constructed other →
  length (heap self) + length (heap other) ≤ fuel →
  ∃ r, form_intersection_with list_of_set fuel self other = Ok r
       ∧ interval r =
           if (9 <=? Z.of_nat (length (docs self)))%Z
           then Z.sqrt (Z.of_nat (length (docs self))) else 3%Z.
Proof.
  intros Hs Ho Hfuel. unfold form_intersection_with.
  destruct (get_intersecting_documents_total list_of_set self other fuel)
    as [ids ->]; [done..|].
  cbn [bind].
  destruct (PostingsList_init_Ok ids (heuristic_interval (length (docs self))))
    as [r Hr].
  { left. pose proof (heuristic_interval_ge (length (docs self))). lia. }
  exists r. split; [done|].
  by apply PostingsList_init_shaped in Hr as (_ & -> & _).
Qed.

Lemma get_intersecting_documents_comm_witness :
  ∃ A B,
    PostingsList_init five_ids 3 = Ok A ∧ PostingsList_init [4]%Z 3 = Ok B
    ∧ ∃ r, get_intersecting_documents remove_dups 6 A B = Ok r
           ∧ get_intersecting_documents remove_dups 6 B A = Ok r.
Proof.
  eexists _, _. split; [vm_compute; reflexivity|].
  split; [vm_compute; reflexivity|].
  apply (get_intersecting_documents_comm remove_dups);
    [by exists five_ids, 3%Z|by exists [4]%Z, 3%Z|vm_compute; lia].
Defined.

Lemma form_intersection_with_interval_witness :
  ∃ A B,
    PostingsList_init five_ids 3 = Ok A ∧ PostingsList_init [4]%Z 3 = Ok B
    ∧ ∃ r, form_intersection_with remove_dups 6 A B = Ok r
           ∧ interval r =
               if (9 <=? Z.of_nat (length (docs A)))%Z
               then Z.sqrt (Z.of_nat (length (docs A))) else 3%Z.
Proof.
  eexists _, _. split; [vm_compute; reflexivity|].
  split; [vm_compute; reflexivity|].
  apply (form_intersection_with_interval remove_dups);
    [by exists five_ids, 3%Z|by exists [4]%Z, 3%Z|vm_compute; lia].
Defined.

(** ** The merge without skip links *)

Lemma naive_loop_mono h1 h2 : ∀ fuel fuel' p1 p2 result r,
  naive_loop fuel h1 h2 p1 p2 result = Ok r → fuel ≤ fuel' →
  naive_loop fuel' h1 h2 p1 p2 result = Ok r.
Proof.
  induction fuel as [|fuel IH]; intros fuel' p1 p2 result r H Hle.
  - destruct p1, p2; simpl in H; try done; by destruct fuel'.
  - destruct fuel'; [lia|].
    destruct p1 as [a1|], p2 as [a2|]; try done.
    cbn [naive_loop] in *.
    destruct (naive_body h1 h2 a1 a2 result) as [[[p1' p2'] r']|]; [|done].
    cbn [bind fst snd] in *. apply (IH fuel') in H; [done|lia].
Qed.

Lemma deref_strip_skips h a :
  deref (strip_skips h) a =
  let* n := deref h a in Ok (mkNode (doc n) (next n) None).
Proof.
  unfold deref, strip_skips. rewrite list_lookup_fmap.
  by destruct (h !! a).
Qed.

Lemma skip_then_step_strip_skips fuel h a n bound :
  deref h a = Ok n →
  skip_then_step fuel (strip_skips h) a bound = Ok (next n).
Proof.
  intros Hn. unfold skip_then_step.
  assert (follow_skips fuel (strip_skips h) a bound = Ok a) as ->.
  { destruct fuel; cbn [follow_skips]; by rewrite deref_strip_skips, Hn. }
  cbn [bind]. by rewrite deref_strip_skips, Hn.
Qed.

(** The source's loop run on chains stripped of their skip links is the
    linear merge. *)
Lemma merge_loop_strip_skips h1 h2 : ∀ fuel p1 p2 result,
  merge_loop fuel (strip_skips h1) (strip_skips h2) p1 p2 result =
  naive_loop fuel h1 h2 p1 p2 result.
Proof.
  induction fuel as [|fuel IH]; intros [a1|] [a2|] result; try done.
  cbn [merge_loop naive_loop].
  assert (merge_body fuel (strip_skips h1) (strip_skips h2) a1 a2 result =
          naive_body h1 h2 a1 a2 result) as ->.
  { unfold merge_body, naive_body.
    rewrite !deref_strip_skips.
    destruct (deref h1 a1) as [n1|] eqn:Hn1; [|done].
    destruct (deref h2 a2) as [n2|] eqn:Hn2; [|done]. cbn [bind doc next].
    rewrite (skip_then_step_strip_skips _ _ _ _ _ Hn1).
    rewrite (skip_then_step_strip_skips _ _ _ _ _ Hn2). done. }
  destruct (naive_body h1 h2 a1 a2 result) as [[[p1 p2] r]|]; [|done].
  cbn [bind fst snd]. apply IH.
Qed.

Lemma naive_intersecting_documents_strip list_of_set fuel A B :
  get_intersecting_documents list_of_set fuel (without_skips A) (without_skips B)
  = naive_intersecting_documents list_of_set fuel A B.
Proof.
  unfold get_intersecting_documents, naive_intersecting_documents. simpl.
  by rewrite merge_loop_strip_skips.
Qed.

Lemma set_listing_singleton f x : set_listing f → f [x] = [x].
Proof.
  intros Hf. apply Permutation_singleton_r, set_listing_NoDup; [done|].
  apply NoDup_singleton.
Qed.

(** C1: the merge is specified to return the ascending, duplicate-free
    intersection of the two id collections.  For the lists constructed
    from [1, 2, 3, 4, 5]
    and from [4], both with interval 3, the id 4 is in both collections
    and the merge returns the empty list: the skip link of the first
    node leads to the node holding 4, and the [else] suite of the inner
    [while] then steps past it. *)
Theorem merge_misses_common_id list_of_set fuel :
  set_listing list_of_set → 6 ≤ fuel →
  ∃ A B,
    PostingsList_init five_ids 3 = Ok A ∧ PostingsList_init [4]%Z 3 = Ok B
    ∧ 4%Z ∈ docs A ∧ 4%Z ∈ docs B
    ∧ get_intersecting_documents list_of_set fuel A B = Ok [].
Proof.
  intros Hf Hfuel. eexists _, _.
  split; [vm_compute; reflexivity|]. split; [vm_compute; reflexivity|].
  split; [cbn; rewrite !elem_of_cons; tauto|].
  split; [cbn; rewrite !elem_of_cons; tauto|].
  unfold get_intersecting_documents.
  erewrite (merge_loop_mono _ _ 6 fuel); [|vm_compute; reflexivity|done].
  cbn [bind]. by rewrite set_listing_nil.
Qed.

Lemma merge_misses_common_id_witness :
  ∃ A B,
    PostingsList_init five_ids 3 = Ok A ∧ PostingsList_init [4]%Z 3 = Ok B
    ∧ 4%Z ∈ docs A ∧ 4%Z ∈ docs B
    ∧ get_intersecting_documents remove_dups 6 A B = Ok [].
Proof.
  apply (merge_misses_common_id remove_dups 6);
    [apply set_listing_remove_dups|lia].
Defined.

(** C3: the merge with skip links is specified to return what a linear
    merge along [next] returns.  On the lists constructed from
    [1, 2, 3, 4, 5] and from [4] the linear merge, and the source's own
    merge run on the same chains without their skip links, return [4];
    the merge with the skip links returns the empty list. *)
Theorem skips_change_the_merge list_of_set fuel :
  set_listing list_of_set → 6 ≤ fuel →
  ∃ A B,
    PostingsList_init five_ids 3 = Ok A ∧ PostingsList_init [4]%Z 3 = Ok B
    ∧ naive_intersecting_documents list_of_set fuel A B = Ok [4%Z]
    ∧ get_intersecting_documents list_of_set fuel
        (without_skips A) (without_skips B) = Ok [4%Z]
    ∧ get_intersecting_documents list_of_set fuel A B = Ok [].
Proof.
  intros Hf Hfuel. eexists _, _.
  split; [vm_compute; reflexivity|]. split; [vm_compute; reflexivity|].
  assert (∀ A B, naive_loop 6 (heap A) (heap B) (root A) (root B) [] = Ok [4%Z] →
    naive_intersecting_documents list_of_set fuel A B = Ok [4%Z]) as Hnaive.
  { intros A B H. unfold naive_intersecting_documents.
    rewrite (naive_loop_mono _ _ 6 fuel _ _ _ _ H Hfuel). cbn [bind].
    by rewrite set_listing_singleton. }
  split; [apply Hnaive; vm_compute; reflexivity|].
  split.
  { rewrite naive_intersecting_documents_strip.
    apply Hnaive. vm_compute; reflexivity. }
  unfold get_intersecting_documents.
  erewrite (merge_loop_mono _ _ 6 fuel); [|vm_compute; reflexivity|done].
  cbn [bind]. by rewrite set_listing_nil.
Qed.

Lemma skips_change_the_merge_witness :
  ∃ A B,
    PostingsList_init five_ids 3 = Ok A ∧ PostingsList_init [4]%Z 3 = Ok B
    ∧ naive_intersecting_documents remove_dups 6 A B = Ok [4%Z]
    ∧ get_intersecting_documents remove_dups 6
        (without_skips A) (without_skips B) = Ok [4%Z]
    ∧ get_intersecting_documents remove_dups 6 A B = Ok [].
Proof.
  apply (skips_change_the_merge remove_dups 6);
    [apply set_listing_remove_dups|lia].
Defined.

(** ** What the merge does guarantee *)

Lemma merge_body_sound fuel h1 h2 a1 a2 result p1 p2 result' :
  merge_body fuel h1 h2 a1 a2 result = Ok (p1, p2, result') →
  ∀ x, x ∈ result' → x ∈ result ∨ (x ∈ doc <$> h1) ∧ (x ∈ doc <$> h2).
Proof.
  unfold merge_body, deref.
  destruct (h1 !! a1) as [n1|] eqn:Hn1; [|done].
  destruct (h2 !! a2) as [n2|] eqn:Hn2; [|done]. cbn [bind].
  destruct (Z.eqb_spec (doc n1) (doc n2)) as [Heq|_].
  - intros [= <- <- <-] x [?|Hx]%elem_of_app; [by left|right].
    apply list_elem_of_singleton in Hx as ->. split.
    + apply list_elem_of_fmap. exists n1. split; [done|].
      by eapply list_elem_of_lookup_2.
    + rewrite Heq. apply list_elem_of_fmap. exists n2. split; [done|].
      by eapply list_elem_of_lookup_2.
  - destruct (doc n1 <? doc n2)%Z.
    + intros (c & _ & [= <- <- <-])%bind_Ok y Hy. by left.
    + intros (c & _ & [= <- <- <-])%bind_Ok y Hy. by left.
Qed.

Lemma merge_loop_sound h1 h2 : ∀ fuel p1 p2 result r,
  merge_loop fuel h1 h2 p1 p2 result = Ok r →
  ∀ x, x ∈ r → x ∈ result ∨ (x ∈ doc <$> h1) ∧ (x ∈ doc <$> h2).
Proof.
  induction fuel as [|fuel IH]; intros [a1|] [a2|] result r H x Hx;
    simpl in H; try done; try (injection H as <-; by left).
  apply bind_Ok in H as ([[p1 p2] result'] & Hb & Hl).
  destruct (IH _ _ _ _ Hl x Hx) as [Hin|?]; [|by right].
  by eapply merge_body_sound.
Qed.

Lemma shaped_docs ds itv h : shaped ds itv h → doc <$> h = ds.
Proof.
  intros [Hlen Hsh]. apply list_eq. intros i. rewrite list_lookup_fmap.
  destruct (ds !! i) as [d|] eqn:Hd.
  - by rewrite (Hsh _ _ Hd).
  - apply lookup_ge_None in Hd.
    rewrite (proj2 (lookup_ge_None h i)) by lia. done.
Qed.

Lemma constructed_docs pl x : constructed pl → x ∈ doc <$> heap pl ↔ x ∈ docs pl.
Proof.
  intros (ds & itv & (-> & _ & _ & Hs)%PostingsList_init_shaped).
  by rewrite (shaped_docs _ _ _ Hs), sorted_Permutation.
Qed.

(** Whatever [get_intersecting_documents] returns for two constructed
    lists holds no id twice and only ids of both lists. *)
Lemma get_intersecting_documents_sound list_of_set fuel A B r :
  set_listing list_of_set → constructed A → constructed B →
  get_intersecting_documents list_of_set fuel A B = Ok r →
  NoDup r ∧ ∀ x, x ∈ r → x ∈ docs A ∧ x ∈ docs B.
Proof.
  intros Hf HA HB. unfold get_intersecting_documents.
  intros (raw & Hraw & [= <-])%bind_Ok.
  destruct (Hf raw) as [Hnd Hin]. split; [done|].
  intros x Hx%Hin.
  destruct (merge_loop_sound _ _ _ _ _ _ _ Hraw x Hx) as [Hnil|[H1 H2]].
  - by apply elem_of_nil in Hnil.
  - by rewrite <- !constructed_docs.
Qed.

(** * Tokenisation *)

Lemma many_shortens p d k : shortens d k → shortens d (λ s, many p s k).
Proof.
  intros Hk s. induction s as [|c s IH]; intros rest; cbn [many].
  { apply Hk. }
  destruct (p c); [|apply Hk].
  destruct (many p s k) as [r|] eqn:Hm; [|apply Hk].
  intros [= <-]. specialize (IH _ eq_refl). simpl. lia.
Qed.

Lemma rmatch_shortens r : ∀ d k,
  shortens d k →
  shortens (d + if nonempty r then 1 else 0) (λ s, rmatch r s k).
Proof.
  induction r as [p|p|r1 IH1 r2 IH2|r1 IH1 r2 IH2]; intros d k Hk;
    cbn [rmatch nonempty].
  - rewrite Nat.add_0_r. by apply many_shortens.
  - intros [|c s] rest; [done|]. destruct (p c); [|done].
    intros H%(many_shortens p d k Hk). simpl. lia.
  - intros s rest H. apply (IH1 _ _ (IH2 _ _ Hk)) in H.
    destruct (nonempty r1), (nonempty r2); simpl in *; lia.
  - intros s rest H. destruct (rmatch r1 s k) as [rest1|] eqn:H1.
    + injection H as <-. apply (IH1 _ _ Hk) in H1.
      destruct (nonempty r1), (nonempty r2); simpl in *; lia.
    + apply (IH2 _ _ Hk) in H.
      destruct (nonempty r1), (nonempty r2); simpl in *; lia.
Qed.

(** A separator is never empty. *)
Lemma separator_shortens s rest :
  rmatch separator s Some = Some rest → String.length rest < String.length s.
Proof.
  intros H. apply (rmatch_shortens separator 0 Some) in H.
  - simpl in H. lia.
  - intros ? ? [= <-]. lia.
Qed.

(** The fuel of [re_split] is enough: more of it gives the same pieces. *)
Lemma split_from_fuel : ∀ fuel1 fuel2 s cur,
  String.length s ≤ fuel1 → String.length s ≤ fuel2 →
  split_from fuel1 s cur = split_from fuel2 s cur.
Proof.
  induction fuel1 as [|fuel1 IH]; intros fuel2 s cur H1 H2;
    destruct s as [|c s], fuel2 as [|fuel2];
    try done; simpl in H1, H2; try lia.
  cbn [split_from].
  destruct (rmatch separator (String c s) Some) as [rest|] eqn:Hm.
  - apply separator_shortens in Hm. simpl in Hm.
    f_equal. apply IH; lia.
  - apply IH; lia.
Qed.

(** * Queries *)

Section Query.

Variable list_of_set : list Z → list Z.
Variable index : gmap string (list Z).

Lemma query_body_skip fuel acc token :
  ¬ contributes index token →
  query_body list_of_set fuel index acc token = Ok acc.
Proof.
  intros Hn. unfold query_body.
  destruct (index !! token) as [raw|] eqn:Hl; [|done].
  case_bool_decide; [done|].
  exfalso. apply Hn. split; [by eexists|done].
Qed.

Lemma for_each_query_filter fuel tokens : ∀ acc,
  for_each (query_body list_of_set fuel index) tokens acc =
  for_each (query_body list_of_set fuel index)
    (filter (contributes index) tokens) acc.
Proof.
  induction tokens as [|token tokens IH]; intros acc; [done|].
  rewrite filter_cons. case_decide as Hc.
  - cbn [for_each].
    destruct (query_body list_of_set fuel index acc token); [|done].
    cbn [bind]. apply IH.
  - cbn [for_each]. rewrite query_body_skip by done. cbn [bind]. apply IH.
Qed.

(** The first contributing token starts the fold with its own list. *)
Lemma query_body_first fuel token raw :
  index !! token = Some raw → token ≠ EmptyString →
  ∃ pl, query_body list_of_set fuel index None token = Ok (Some pl)
        ∧ PostingsList_init raw (heuristic_interval (length raw)) = Ok pl.
Proof.
  intros Hl Hne. unfold query_body. rewrite Hl.
  rewrite bool_decide_false by done.
  destruct (PostingsList_init_Ok raw (heuristic_interval (length raw)))
    as [pl Hpl].
  { left. pose proof (heuristic_interval_ge (length raw)). lia. }
  exists pl. by rewrite Hpl.
Qed.

Lemma form_intersection_with_total self other :
  constructed self → constructed other →
  ∃ r, constructed r ∧
    ∀ fuel, length (heap self) + length (heap other) ≤ fuel →
      form_intersection_with list_of_set fuel self other = Ok r.
Proof.
  intros Hs Ho.
  destruct (get_intersecting_documents_total list_of_set self other
              (length (heap self) + length (heap other)))
    as [ids Hids]; [done..|].
  destruct (PostingsList_init_Ok ids
              (heuristic_interval (length (docs self)))) as [r Hr].
  { left. pose proof (heuristic_interval_ge (length (docs self))). lia. }
  exists r. split; [by eexists _, _|].
  intros fuel Hfuel. unfold form_intersection_with.
  by rewrite (get_intersecting_documents_mono _ _ _ _ _ _ Hids Hfuel).
Qed.

Lemma query_body_total acc token :
  constructed_opt acc →
  ∃ fuel0 acc', constructed_opt acc' ∧
    ∀ fuel, fuel0 ≤ fuel →
      query_body list_of_set fuel index acc token = Ok acc'.
Proof.
  intros Hacc. unfold query_body.
  destruct (index !! token) as [raw|]; [|by exists 0, acc].
  case_bool_decide; [by exists 0, acc|].
  destruct (PostingsList_init_Ok raw (heuristic_interval (length raw)))
    as [pl Hpl].
  { left. pose proof (heuristic_interval_ge (length raw)). lia. }
  rewrite Hpl. cbn [bind].
  assert (constructed pl) as Hc by by eexists _, _.
  destruct acc as [self|].
  - destruct (form_intersection_with_total self pl) as (r & Hr & Hrun);
      [by apply Hacc|done|].
    exists (length (heap self) + length (heap pl)), (Some r).
    split; [by intros ? [= <-]|].
    intros fuel Hfuel. by rewrite Hrun.
  - exists 0, (Some pl). split; [by intros ? [= <-]|done].
Qed.

Lemma for_each_query_total tokens : ∀ acc,
  constructed_opt acc →
  ∃ fuel0 r, ∀ fuel, fuel0 ≤ fuel →
    for_each (query_body list_of_set fuel index) tokens acc = Ok r.
Proof.
  induction tokens as [|token tokens IH]; intros acc Hacc.
  { by exists 0, acc. }
  destruct (query_body_total acc token Hacc) as (f1 & acc' & Hacc' & H1).
  destruct (IH acc' Hacc') as (f2 & r & H2).
  exists (f1 `max` f2), r. intros fuel Hfuel. cbn [for_each].
  rewrite H1 by lia. cbn [bind]. apply H2. lia.
Qed.

(** C5: [query] is the fold over the tokens that are in the index and
    not empty, the others leave the running intersection as it is; an
    index that maps "cat" to [1, 2, 3] and has no "dog" answers
    "cat dog" with [1, 2, 3]; and [query] returns a list for every
    index and every text once the fuel is large enough. *)
Theorem unknown_tokens_skipped :
  (∀ fuel text,
     query list_of_set fuel index text =
     and_fold list_of_set fuel index
       (filter (contributes index) (re_split text)))
  ∧ (∀ fuel,
       index !! "cat"%string = Some [1; 2; 3]%Z →
       index !! "dog"%string = None →
       query list_of_set fuel index "cat dog" = Ok [1; 2; 3]%Z)
  ∧ (∀ text, ∃ fuel0 r, ∀ fuel, fuel0 ≤ fuel →
       query list_of_set fuel index text = Ok r).
Proof.
  split_and!.
  - intros fuel text. unfold query, and_fold.
    by rewrite for_each_query_filter.
  - intros fuel Hcat Hdog. unfold query, and_fold.
    change (re_split "cat dog") with ["cat"; "dog"]%string.
    cbn [for_each].
    destruct (query_body_first fuel "cat" _ Hcat) as (pl & -> & Hpl);
      [done|].
    cbn [bind]. unfold query_body at 1. rewrite Hdog. cbn [bind].
    by vm_compute in Hpl; injection Hpl as <-.
  - intros text. unfold query, and_fold.
    destruct (for_each_query_total (re_split text) None) as (f0 & r & Hr);
      [done|].
    eexists f0, _. intros fuel Hfuel. by rewrite Hr.
Qed.

(** C10, amended: when exactly one token of the text is not empty and in
    the index, [query] returns that token's raw id collection sorted
    ascending, every id as often as the collection holds it.  (A token
    that is the empty string is passed over by [or not token] even when
    the index has it as a key.) *)
Theorem single_token_query fuel text token raw :
  filter (contributes index) (re_split text) = [token] →
  index !! token = Some raw →
  query list_of_set fuel index text = Ok (sorted raw)
  ∧ Sorted Z.le (sorted raw) ∧ sorted raw ≡ₚ raw.
Proof.
  intros Htok Hraw. split; [|split; [apply sorted_Sorted|apply sorted_Permutation]].
  assert (token ≠ EmptyString) as Hne.
  { assert (token ∈ filter (contributes index) (re_split text)) as Hin
      by (rewrite Htok; apply list_elem_of_here).
    apply list_elem_of_filter in Hin as [[_ ?] _]. done. }
  unfold query, and_fold. rewrite for_each_query_filter, Htok.
  cbn [for_each].
  destruct (query_body_first fuel token raw Hraw Hne) as (pl & -> & Hpl).
  cbn [bind]. by apply PostingsList_init_shaped in Hpl as (-> & _).
Qed.

End Query.

Lemma unknown_tokens_skipped_witness :
  query remove_dups 0 cat_index "cat dog" = Ok [1; 2; 3]%Z.
Proof.
  apply (proj1 (proj2 (unknown_tokens_skipped remove_dups cat_index)));
    reflexivity.
Defined.

Lemma single_token_query_witness :
  query remove_dups 0 x_index "x y" = Ok (sorted [2; 1; 2]%Z)
  ∧ Sorted Z.le (sorted [2; 1; 2]%Z) ∧ sorted [2; 1; 2]%Z ≡ₚ [2; 1; 2]%Z.
Proof.
  apply (single_token_query remove_dups x_index 0 "x y" "x"); reflexivity.
Defined.

(** C10 does not extend to a token that is merely in the index: the
    empty text has the empty string as its one token; with the index
    that files [2, 1] under the empty string, [query] returns the empty
    list and not [1, 2]. *)
Lemma single_token_query_empty_key :
  ¬ (∀ (list_of_set : list Z → list Z) (fuel : nat)
       (idx : gmap string (list Z)) (text token : string) (raw : list Z),
       set_listing list_of_set →
       filter (λ t, is_Some (idx !! t)) (re_split text) = [token] →
       idx !! token = Some raw →
       query list_of_set fuel idx text = Ok (sorted raw)).
Proof.
  intros H.
  specialize (H remove_dups 0 empty_key_index EmptyString EmptyString
                [2; 1]%Z set_listing_remove_dups eq_refl eq_refl).
  by vm_compute in H.
Qed.

(** C6: on the index that maps "a" to 1..9 and "b" to 2, 4, 6, 8, 10 the
    query "a b" returns [2, 4, 6, 8], whatever order the interpreter
    lists a set in. *)
Theorem query_a_b list_of_set fuel :
  set_listing list_of_set → 14 ≤ fuel →
  query list_of_set fuel scenario_index "a b" = Ok [2; 4; 6; 8]%Z.
Proof.
  intros Hf Hfuel. unfold query, and_fold.
  change (re_split "a b") with ["a"; "b"]%string. cbn [for_each].
  destruct (query_body_first list_of_set scenario_index fuel "a" _ eq_refl)
    as (plA & -> & HA); [done|].
  cbn [bind]. unfold query_body.
  change (scenario_index !! "b"%string) with (Some [2; 4; 6; 8; 10]%Z).
  rewrite bool_decide_false by done.
  destruct (PostingsList_init [2; 4; 6; 8; 10]%Z _) as [plB|] eqn:HB;
    [|by vm_compute in HB].
  cbn [bind]. unfold form_intersection_with, get_intersecting_documents.
  vm_compute in HA. injection HA as <-.
  vm_compute in HB. injection HB as <-.
  erewrite (merge_loop_mono _ _ 14 fuel); [|vm_compute; reflexivity|done].
  cbn [bind].
  destruct (PostingsList_init (list_of_set [2; 4; 6; 8]%Z) _) as [r|] eqn:Hr.
  - cbn [bind]. apply PostingsList_init_shaped in Hr as (-> & _).
    f_equal. rewrite (sorted_unique _ [2; 4; 6; 8]%Z); [done|].
    apply set_listing_NoDup; [done|]. by apply (bool_decide_unpack _).
  - exfalso.
    destruct (PostingsList_init_Ok (list_of_set [2; 4; 6; 8]%Z) 3)
      as [r' Hr']; [by left|].
    vm_compute heuristic_interval in Hr. congruence.
Qed.

Lemma query_a_b_witness :
  query remove_dups 14 scenario_index "a b" = Ok [2; 4; 6; 8]%Z.
Proof.
  apply (query_a_b remove_dups 14); [apply set_listing_remove_dups|lia].
Defined.

(** ** Further examples *)

(** A token asked twice is intersected with itself, and the ids come
    back once each; asked once, they come back as often as stored. *)
Example repeated_token_deduplicated list_of_set :
  set_listing list_of_set →
  query list_of_set 6 x_index "x x" = Ok [1; 2]%Z
  ∧ query list_of_set 6 x_index "x" = Ok [1; 2; 2]%Z.
Proof.
  intros Hf. split; [|reflexivity].
  unfold query, and_fold.
  change (re_split "x x") with ["x"; "x"]%string. cbn [for_each].
  destruct (query_body_first list_of_set x_index 6 "x" _ eq_refl)
    as (pl & -> & Hpl); [done|].
  cbn [bind]. unfold query_body.
  change (x_index !! "x"%string) with (Some [2; 1; 2]%Z).
  rewrite bool_decide_false by done. rewrite Hpl. cbn [bind].
  vm_compute in Hpl. injection Hpl as <-.
  unfold form_intersection_with, get_intersecting_documents.
  change (merge_loop 6 _ _ _ _ []) with (Ok [2; 1; 2]%Z). cbn [bind].
  destruct (PostingsList_init (list_of_set [2; 1; 2]%Z) _) as [r|] eqn:Hr.
  - cbn [bind]. apply PostingsList_init_shaped in Hr as (-> & _).
    f_equal. rewrite (sorted_unique _ [1; 2]%Z); [done|].
    destruct (Hf [2; 1; 2]%Z) as [Hnd Hin].
    apply NoDup_Permutation; [done|by apply (bool_decide_unpack _)|].
    intros x. rewrite Hin, !elem_of_cons, !elem_of_nil. tauto.
  - exfalso.
    destruct (PostingsList_init_Ok (list_of_set [2; 1; 2]%Z) 3)
      as [r' Hr']; [by left|].
    vm_compute heuristic_interval in Hr. congruence.
Qed.

(** * The whole chain *)

(** With any fuel that covers the input the walk from [root] ends after
    the last id: the chain holds the input and nothing more. *)
Lemma chain_docs_whole ds itv pl fuel :
  PostingsList_init ds itv = Ok pl → length ds ≤ fuel →
  chain_docs fuel (heap pl) (root pl) = ds.
Proof.
  intros (_ & _ & -> & Hs)%PostingsList_init_shaped Hfuel.
  destruct ds as [|d ds]; [by destruct fuel|].
  rewrite (chain_docs_shaped _ _ _ Hs), drop_0. by apply take_ge.
Qed.

(** * More on tokenisation *)

Lemma append_empty_r s : s +:+ EmptyString = s.
Proof.
  induction s as [|c s IH]; [done|].
  change (String c (s +:+ EmptyString) = String c s). by rewrite IH.
Qed.

Lemma append_snoc s c s' : (s +:+ String c EmptyString) +:+ s' = s +:+ String c s'.
Proof.
  induction s as [|c' s IH]; [done|].
  change (String c' ((s +:+ String c EmptyString) +:+ s') =
          String c' (s +:+ String c s')).
  by rewrite IH.
Qed.

Lemma spaces_app s1 s2 : spaces (s1 +:+ s2) = spaces s1 + spaces s2.
Proof.
  induction s1 as [|c s1 IH]; [done|].
  change (spaces (String c (s1 +:+ s2)) = spaces (String c s1) + spaces s2).
  simpl. rewrite IH. lia.
Qed.

Lemma many_Some p : ∀ s, is_Some (many p s Some).
Proof.
  induction s as [|c s [r Hr]]; cbn [many]; [by eexists|].
  destruct (p c); [|by eexists]. rewrite Hr. by eexists.
Qed.

Lemma separator_None_head c s :
  rmatch separator (String c s) Some = None → is_space c = false.
Proof.
  destruct (is_space c) eqn:Hc; [|done].
  cbn [separator rmatch]. rewrite Hc.
  by destruct (many_Some is_space s) as [r ->].
Qed.

Lemma split_from_spaces : ∀ fuel s cur,
  spaces cur = 0 → Forall (λ t, spaces t = 0) (split_from fuel s cur).
Proof.
  induction fuel as [|fuel IH]; intros [|c s] cur Hcur; cbn [split_from];
    try by repeat constructor.
  destruct (rmatch separator (String c s) Some) as [rest|] eqn:Hm.
  - constructor; [done|]. by apply IH.
  - apply IH. rewrite spaces_app. simpl.
    rewrite (separator_None_head _ _ Hm). lia.
Qed.

Lemma many_sheds p d k : sheds d k → sheds d (λ s, many p s k).
Proof.
  intros Hk s. induction s as [|c s IH]; intros rest; cbn [many].
  { apply Hk. }
  destruct (p c); [|apply Hk].
  destruct (many p s k) as [r|] eqn:Hm; [|apply Hk].
  intros [= <-]. specialize (IH _ eq_refl). simpl. lia.
Qed.

Lemma rmatch_sheds r : ∀ d k, sheds d k → sheds d (λ s, rmatch r s k).
Proof.
  induction r as [p|p|r1 IH1 r2 IH2|r1 IH1 r2 IH2]; intros d k Hk;
    cbn [rmatch].
  - by apply many_sheds.
  - intros [|c s] rest; [done|]. destruct (p c); [|done].
    intros H%(many_sheds p d k Hk). simpl. lia.
  - apply IH1, IH2, Hk.
  - intros s rest H. destruct (rmatch r1 s k) as [rest1|] eqn:H1.
    + injection H as <-. by apply (IH1 _ _ Hk).
    + by apply (IH2 _ _ Hk).
Qed.

Lemma rmatch_sheds_space r : ∀ d k,
  takes_space r → sheds d k → sheds (S d) (λ s, rmatch r s k).
Proof.
  induction r as [p|p|r1 IH1 r2 IH2|r1 IH1 r2 IH2]; intros d k Ht Hk;
    cbn [rmatch takes_space] in *.
  - done.
  - intros [|c s] rest; [done|]. destruct (p c) eqn:Hc; [|done].
    intros H%(many_sheds p d k Hk). simpl. rewrite (Ht _ Hc). lia.
  - destruct Ht as [Ht|Ht].
    + apply IH1; [done|]. by apply rmatch_sheds.
    + apply (rmatch_sheds r1 (S d)). by apply IH2.
  - destruct Ht as [Ht1 Ht2]. intros s rest H.
    destruct (rmatch r1 s k) as [rest1|] eqn:H1.
    + injection H as <-. by apply (IH1 _ _ Ht1 Hk).
    + by apply (IH2 _ _ Ht2 Hk).
Qed.

Lemma separator_takes_space : takes_space separator.
Proof. cbn. tauto. Qed.

Lemma separator_None s : spaces s = 0 → rmatch separator s Some = None.
Proof.
  intros Hs. destruct (rmatch separator s Some) as [rest|] eqn:Hm; [|done].
  apply (rmatch_sheds_space separator 0 Some separator_takes_space) in Hm.
  - lia.
  - intros ? ? [= <-]. lia.
Qed.

Lemma split_from_no_space : ∀ fuel s cur,
  spaces s = 0 → String.length s ≤ fuel →
  split_from fuel s cur = [cur +:+ s].
Proof.
  induction fuel as [|fuel IH]; intros [|c s] cur Hs Hfuel;
    cbn [split_from]; simpl in Hfuel; try lia.
  - by rewrite append_empty_r.
  - by rewrite append_empty_r.
  - rewrite (separator_None _ Hs). simpl in Hs.
    rewrite IH by lia. by rewrite append_snoc.
Qed.

(** X20: the third alternative of the pattern never decides a match:
    wherever it could start, the first alternative has already matched
    the whitespace, so punctuation after whitespace stays in the next
    piece unless whitespace follows it too. *)
Theorem separator_third_alternative_dead s :
  rmatch separator s Some =
  rmatch (Alt (Plus is_space)
            (Seq (Star is_space) (Seq (Plus is_punct) (Plus is_space))))
    s Some.
Proof.
  unfold separator. cbn [rmatch].
  destruct s as [|c s]; [done|].
  destruct (is_space c) eqn:Hc.
  - by destruct (many_Some is_space s) as [r ->].
  - by destruct (many is_space (String c s) _).
Qed.

(** X13: no piece that [re.split] returns holds a whitespace character. *)
Theorem re_split_no_space text :
  Forall (λ token, spaces token = 0) (re_split text).
Proof. by apply split_from_spaces. Qed.

(** X14: a text without whitespace is returned as its only piece: runs
    of punctuation split a text only next to whitespace. *)
Theorem re_split_single text :
  spaces text = 0 → re_split text = [text].
Proof. intros Hs. unfold re_split. by rewrite split_from_no_space. Qed.

Lemma re_split_single_witness : re_split "e-mail!" = ["e-mail!"%string].
Proof. apply (re_split_single "e-mail!"). reflexivity. Defined.

(** * The index of a file *)

Lemma index_token_entry d idx tok t :
  entry (index_token d idx tok) t =
  entry idx t ++ if decide (indexable tok ∧ tok = t) then [d] else [].
Proof.
  unfold index_token, entry.
  case_bool_decide as Hemp.
  { rewrite decide_False by (intros [[? _] _]; done). by rewrite app_nil_r. }
  destruct (long_number tok) eqn:Hlong.
  { rewrite decide_False by (intros [[_ ?] _]; congruence).
    by rewrite app_nil_r. }
  assert (indexable tok) by done.
  destruct (decide (tok = t)) as [->|Hne].
  - rewrite decide_True by done. rewrite lookup_insert_eq. simpl.
    destruct (idx !! t) as [l|] eqn:Hl; [by rewrite Hl|].
    by rewrite lookup_insert_eq.
  - rewrite decide_False by tauto. rewrite lookup_insert_ne by done.
    rewrite app_nil_r. destruct (idx !! tok); [done|].
    by rewrite lookup_insert_ne.
Qed.

Lemma index_token_clean d idx tok : clean idx → clean (index_token d idx tok).
Proof.
  intros Hc t. unfold index_token.
  case_bool_decide; [apply Hc|].
  destruct (long_number tok); [apply Hc|].
  destruct (decide (tok = t)) as [->|Hne].
  - rewrite lookup_insert_eq. intros [= Hnil]. by destruct (default _ _).
  - rewrite lookup_insert_ne by done. destruct (idx !! tok); [apply Hc|].
    rewrite lookup_insert_ne by done. apply Hc.
Qed.

Lemma clean_lookup idx t l : clean idx → idx !! t = Some l ↔ entry idx t = l ∧ l ≠ [].
Proof.
  intros Hc. unfold entry. specialize (Hc t).
  destruct (idx !! t) as [l'|]; simpl; split.
  - intros [= ->]. split; [done|]. by intros ->.
  - by intros [-> _].
  - done.
  - by intros [<- ?].
Qed.

Lemma fold_index_token d tokens : ∀ idx t,
  entry (fold_left (index_token d) tokens idx) t =
  entry idx t ++
    if decide (indexable t)
    then replicate (length (filter (λ tok, tok = t) tokens)) d else [].
Proof.
  induction tokens as [|tok tokens IH]; intros idx t; cbn [fold_left].
  { rewrite filter_nil. simpl. case_decide; by rewrite app_nil_r. }
  rewrite IH, index_token_entry, <- (assoc_L (++)). f_equal.
  rewrite filter_cons.
  destruct (decide (tok = t)) as [->|Hne].
  - destruct (decide (indexable t)).
    + by rewrite decide_True by done.
    + by rewrite decide_False by tauto.
  - rewrite decide_False by tauto. done.
Qed.

Lemma fold_index_token_clean d tokens : ∀ idx,
  clean idx → clean (fold_left (index_token d) tokens idx).
Proof.
  induction tokens as [|tok tokens IH]; intros idx Hc; [done|].
  cbn [fold_left]. by apply IH, index_token_clean.
Qed.

Lemma index_lines_entry tweets : ∀ idx d t,
  entry (index_lines tweets idx d) t =
  entry idx t ++
    if decide (indexable t) then postings t (lines_read tweets) d else [].
Proof.
  induction tweets as [|tweet tweets IH]; intros idx d t;
    cbn [index_lines lines_read].
  { simpl. case_decide; by rewrite app_nil_r. }
  case_bool_decide.
  { simpl. case_decide; by rewrite app_nil_r. }
  rewrite IH, fold_index_token, <- (assoc_L (++)). f_equal.
  by case_decide.
Qed.

Lemma index_lines_clean tweets : ∀ idx d,
  clean idx → clean (index_lines tweets idx d).
Proof.
  induction tweets as [|tweet tweets IH]; intros idx d Hc; [done|].
  cbn [index_lines]. case_bool_decide; [done|].
  by apply IH, fold_index_token_clean.
Qed.

Lemma index_lookup tweets t l :
  index tweets !! t = Some l ↔
  indexable t ∧ l = postings t (lines_read tweets) 0 ∧ l ≠ [].
Proof.
  unfold index. rewrite clean_lookup by (apply index_lines_clean; by intros ?).
  rewrite index_lines_entry. unfold entry at 1. rewrite lookup_empty. simpl.
  case_decide; intuition congruence.
Qed.

Lemma lines_read_length tweets : length (lines_read tweets) ≤ length tweets.
Proof.
  induction tweets as [|tweet tweets IH]; simpl; [done|].
  case_bool_decide; simpl; lia.
Qed.

Lemma lines_read_all tweets :
  Forall (λ tweet, tweet ≠ EmptyString) tweets → lines_read tweets = tweets.
Proof.
  induction 1 as [|tweet tweets Hne _ IH]; simpl; [done|].
  rewrite bool_decide_false by done. by rewrite IH.
Qed.

Lemma elem_of_postings t tweets : ∀ d x,
  x ∈ postings t tweets d →
  ∃ i tweet, tweets !! i = Some tweet ∧ x = (d + Z.of_nat i)%Z
             ∧ t ∈ re_split tweet.
Proof.
  induction tweets as [|tweet tweets IH]; intros d x; cbn [postings].
  { by intros ?%elem_of_nil. }
  intros [Hx|Hx]%elem_of_app.
  - apply elem_of_replicate in Hx as [-> Hocc]. exists 0, tweet.
    split; [done|]. split; [lia|].
    unfold occurrences in Hocc.
    destruct (filter _ (re_split tweet)) as [|t' ?] eqn:Hf; [done|].
    assert (t' ∈ filter (λ tok, tok = t) (re_split tweet)) as Hin
      by (rewrite Hf; apply list_elem_of_here).
    by apply list_elem_of_filter in Hin as [-> ?].
  - destruct (IH _ _ Hx) as (i & tw & Hi & -> & Hin).
    exists (S i), tw. split; [done|]. split; [lia|done].
Qed.

Lemma postings_Sorted t tweets : ∀ d, StronglySorted Z.le (postings t tweets d).
Proof.
  induction tweets as [|tweet tweets IH]; intros d; cbn [postings].
  { constructor. }
  apply StronglySorted_app. split_and!.
  - intros x1 x2 [-> _]%elem_of_replicate
      (i & ? & _ & -> & _)%elem_of_postings. lia.
  - induction (occurrences t tweet) as [|n IHn]; simpl; constructor; [done|].
    apply Forall_forall. by intros x [-> _]%elem_of_replicate.
  - apply IH.
Qed.

Lemma filter_replicate_ne (x y : Z) n :
  x ≠ y → filter (λ z, z = x) (replicate n y) = [].
Proof.
  intros Hne. induction n as [|n IH]; simpl; [done|].
  by rewrite filter_cons_False.
Qed.

Lemma filter_replicate_eq (x : Z) n :
  filter (λ z, z = x) (replicate n x) = replicate n x.
Proof.
  induction n as [|n IH]; simpl; [done|].
  rewrite filter_cons_True by done. by rewrite IH.
Qed.

Lemma postings_count t tweets : ∀ d i tweet,
  tweets !! i = Some tweet →
  length (filter (λ x, x = (d + Z.of_nat i)%Z) (postings t tweets d)) =
  occurrences t tweet.
Proof.
  induction tweets as [|tw tweets IH]; intros d i tweet Hi; [done|].
  cbn [postings]. rewrite filter_app, length_app.
  destruct i as [|i]; simpl in Hi.
  - injection Hi as ->. replace (d + Z.of_nat 0)%Z with d by lia.
    rewrite filter_replicate_eq, length_replicate.
    assert (filter (λ x, x = d) (postings t tweets (d + 1)) = []) as ->;
      [|simpl; lia].
    destruct (filter _ _) as [|x ?] eqn:Hf; [done|]. exfalso.
    assert (x ∈ filter (λ x, x = d) (postings t tweets (d + 1))) as Hin
      by (rewrite Hf; apply list_elem_of_here).
    apply list_elem_of_filter in Hin as [-> Hin].
    apply elem_of_postings in Hin as (? & ? & _ & ? & _). lia.
  - rewrite filter_replicate_ne by lia. simpl.
    replace (d + Z.of_nat (S i))%Z with ((d + 1) + Z.of_nat i)%Z by lia.
    by apply IH.
Qed.

Lemma postings_nil t tweets : ∀ d,
  postings t tweets d = [] ↔ Forall (λ tweet, t ∉ re_split tweet) tweets.
Proof.
  induction tweets as [|tweet tweets IH]; intros d; cbn [postings].
  { split; [constructor|done]. }
  rewrite Forall_cons, <- (IH (d + 1)%Z). unfold occurrences. split.
  - intros [Hr Hp]%app_eq_nil. split; [|done].
    intros Hin. apply (f_equal length) in Hr.
    rewrite length_replicate in Hr.
    assert (t ∈ filter (λ tok, tok = t) (re_split tweet)) as Hf
      by by apply list_elem_of_filter.
    destruct (filter _ _); [by apply elem_of_nil in Hf|done].
  - intros [Hn ->]. rewrite app_nil_r.
    destruct (filter _ (re_split tweet)) as [|t' ?] eqn:Hf; [done|].
    exfalso. apply Hn.
    assert (t' ∈ filter (λ tok, tok = t) (re_split tweet)) as Hin
      by (rewrite Hf; apply list_elem_of_here).
    by apply list_elem_of_filter in Hin as [-> ?].
Qed.

Lemma elem_of_lines_read tweets i tweet :
  lines_read tweets !! i = Some tweet → tweets !! i = Some tweet.
Proof.
  revert i. induction tweets as [|tw tweets IH]; intros i; simpl; [done|].
  case_bool_decide; [done|]. destruct i; simpl; [done|]. apply IH.
Qed.

(** X15: [index] files ids only under tokens that are not empty, do not
    begin with seven digits and hold no whitespace, and never under an
    empty list. *)
Theorem index_keys tweets token ids :
  index tweets !! token = Some ids →
  token ≠ EmptyString ∧ long_number token = false
  ∧ spaces token = 0 ∧ ids ≠ [].
Proof.
  intros ([Hne Hlong] & -> & Hnil)%index_lookup. split_and!; try done.
  destruct (postings token (lines_read tweets) 0) as [|x ?] eqn:Hp; [done|].
  assert (x ∈ postings token (lines_read tweets) 0) as Hin
    by (rewrite Hp; apply list_elem_of_here).
  apply elem_of_postings in Hin as (i & tweet & _ & _ & Hin).
  pose proof (split_from_spaces (String.length tweet) tweet EmptyString
                eq_refl) as Hall.
  rewrite Forall_forall in Hall. by apply Hall.
Qed.

Lemma index_keys_witness :
  "peanut"%string ≠ EmptyString ∧ long_number "peanut" = false
  ∧ spaces "peanut" = 0 ∧ [0; 1; 1]%Z ≠ [].
Proof. apply (index_keys two_tweets "peanut" [0; 1; 1]%Z). reflexivity. Defined.

(** X16: every id list of the index is ascending, and its ids are line
    numbers of the file, counted from 0. *)
Theorem index_ids tweets token ids :
  index tweets !! token = Some ids →
  Sorted Z.le ids ∧ ∀ x, x ∈ ids → (0 ≤ x < Z.of_nat (length tweets))%Z.
Proof.
  intros (_ & -> & _)%index_lookup. split.
  - apply StronglySorted_Sorted, postings_Sorted.
  - intros x (i & tweet & Hi%lookup_lt_Some & -> & _)%elem_of_postings.
    pose proof (lines_read_length tweets). lia.
Qed.

Lemma index_ids_witness :
  Sorted Z.le [0; 1; 1]%Z
  ∧ ∀ x, x ∈ [0; 1; 1]%Z → (0 ≤ x < Z.of_nat (length two_tweets))%Z.
Proof. apply (index_ids two_tweets "peanut" [0; 1; 1]%Z). reflexivity. Defined.

(** X17: for a file whose lines are all read, a token that is not empty
    and does not begin with seven digits is filed under line number [i]
    exactly as often as line [i] holds it; it is no key of the index
    exactly when no line holds it. *)
Theorem index_occurrences tweets token :
  Forall (λ tweet, tweet ≠ EmptyString) tweets →
  token ≠ EmptyString → long_number token = false →
  (∀ i tweet, tweets !! i = Some tweet →
     length (filter (λ x, x = Z.of_nat i) (entry (index tweets) token)) =
     occurrences token tweet)
  ∧ (index tweets !! token = None ↔
     Forall (λ tweet, token ∉ re_split tweet) tweets).
Proof.
  intros Hall Hne Hlong.
  assert (indexable token) as Hix by done.
  assert (entry (index tweets) token = postings token tweets 0) as Hentry.
  { unfold index. rewrite index_lines_entry. unfold entry at 1.
    rewrite lookup_empty, decide_True by done. simpl.
    by rewrite lines_read_all. }
  split.
  - intros i tweet Hi. rewrite Hentry.
    by rewrite <- (postings_count token tweets 0 i tweet Hi).
  - rewrite <- (postings_nil token tweets 0), <- Hentry.
    assert (clean (index tweets)) as Hc
      by (apply index_lines_clean; by intros ?).
    unfold entry. specialize (Hc token).
    destruct (index tweets !! token) as [[|]|]; simpl; try done.
Qed.

Lemma index_occurrences_witness :
  length (filter (λ x, x = Z.of_nat 1) (entry (index two_tweets) "peanut")) =
  occurrences "peanut"
    ("walnut - peanut peanut" +:+ String "010" EmptyString).
Proof.
  apply (index_occurrences two_tweets "peanut");
    [by repeat constructor|done|done|done].
Defined.

(** X18: a list constructed from an id list of the index has [docs]
    equal to that list, ascending, and a chain from [root] that visits
    exactly [docs] and then ends: a walk of any length that covers the
    list meets [docs] and nothing more. *)
Theorem index_chain_is_docs tweets token raw itv pl :
  index tweets !! token = Some raw →
  PostingsList_init raw itv = Ok pl →
  docs pl = raw ∧ Sorted Z.le (docs pl)
  ∧ ∀ fuel, length raw ≤ fuel →
      chain_docs fuel (heap pl) (root pl) = docs pl.
Proof.
  intros (_ & -> & _)%index_lookup Hpl.
  pose proof (λ fuel, chain_docs_whole _ itv pl fuel Hpl) as Hchain.
  apply PostingsList_init_shaped in Hpl as (-> & _).
  assert (sorted (postings token (lines_read tweets) 0) =
          postings token (lines_read tweets) 0) as ->.
  { apply sorted_id, StronglySorted_Sorted, postings_Sorted. }
  split_and!; [done|apply StronglySorted_Sorted, postings_Sorted|done].
Qed.

Lemma index_chain_is_docs_witness :
  ∃ pl, PostingsList_init [0; 1; 1]%Z 3 = Ok pl
        ∧ docs pl = [0; 1; 1]%Z ∧ Sorted Z.le (docs pl)
        ∧ ∀ fuel, length [0; 1; 1]%Z ≤ fuel →
            chain_docs fuel (heap pl) (root pl) = docs pl.
Proof.
  eexists. split; [vm_compute; reflexivity|].
  apply (index_chain_is_docs two_tweets "peanut" [0; 1; 1]%Z 3);
    reflexivity.
Defined.

(** X19: a key of the index, asked as a query, gives back its id list
    as the index holds it. *)
Theorem index_query_round_trip list_of_set fuel tweets token raw :
  index tweets !! token = Some raw →
  query list_of_set fuel (index tweets) token = Ok raw.
Proof.
  intros Hraw. pose proof Hraw as ([Hne _] & Hp & _)%index_lookup.
  assert (spaces token = 0) as Hsp.
  { destruct raw as [|x raw']; [by apply index_lookup in Hraw as (_&_&?)|].
    assert (x ∈ postings token (lines_read tweets) 0) as Hin
      by (rewrite <- Hp; apply list_elem_of_here).
    apply elem_of_postings in Hin as (i & tweet & _ & _ & Hin).
    pose proof (split_from_spaces (String.length tweet) tweet EmptyString
                  eq_refl) as Hall.
    rewrite Forall_forall in Hall. by apply Hall. }
  unfold query, and_fold, re_split.
  rewrite split_from_no_space by done.
  change (EmptyString +:+ token) with token. cbn [for_each].
  destruct (query_body_first list_of_set (index tweets) fuel token raw)
    as (pl & -> & Hpl); [done..|].
  cbn [bind]. apply PostingsList_init_shaped in Hpl as (-> & _).
  f_equal. rewrite Hp.
  apply sorted_id, StronglySorted_Sorted, postings_Sorted.
Qed.

Lemma index_query_round_trip_witness :
  query remove_dups 0 (index two_tweets) "peanut" = Ok [0; 1; 1]%Z.
Proof. apply (index_query_round_trip remove_dups 0 two_tweets). reflexivity. Defined.

(** * More on construction *)

(** X1: the constructor fails only with [ValueError], and exactly when
    the interval is 0 and the input is not empty. *)
Theorem PostingsList_init_error ds itv e :
  PostingsList_init ds itv = Err e ↔ e = ValueError ∧ itv = 0%Z ∧ ds ≠ [].
Proof.
  split.
  - intros Herr. destruct (decide (itv = 0%Z ∧ ds ≠ [])) as [[-> Hne]|Hn].
    + split; [|done]. destruct ds as [|d0 rest]; [done|].
      unfold PostingsList_init, create_postings_list in Herr.
      destruct (fold_left link_node rest _) as [h1 c].
      simpl in Herr. congruence.
    + destruct (PostingsList_init_Ok ds itv) as [pl Hpl]; [|congruence].
      destruct (decide (itv = 0%Z)); [|by left]. right.
      destruct ds; [done|]. exfalso. by apply Hn.
  - intros (-> & -> & Hne). destruct ds as [|d0 rest]; [done|].
    unfold PostingsList_init, create_postings_list.
    by destruct (fold_left link_node rest _) as [h1 c].
Qed.

Lemma PostingsList_init_error_witness :
  PostingsList_init [7]%Z 0 = Err ValueError.
Proof. by apply (PostingsList_init_error [7]%Z 0 ValueError). Defined.

(** X2: [docs] is ascending and holds the ids of the input, each as
    often as the input; the chain from [root] visits the ids in the
    order of the input and then ends (a walk of any length that covers
    the input meets exactly the input), so it visits exactly [docs]
    whenever the input was ascending. *)
Theorem chain_order ds itv pl :
  PostingsList_init ds itv = Ok pl →
  Sorted Z.le (docs pl) ∧ docs pl ≡ₚ ds
  ∧ (∀ fuel, length ds ≤ fuel → chain_docs fuel (heap pl) (root pl) = ds)
  ∧ (Sorted Z.le ds →
     ∀ fuel, length ds ≤ fuel →
       chain_docs fuel (heap pl) (root pl) = docs pl).
Proof.
  intros Hpl.
  pose proof (λ fuel, chain_docs_whole ds itv pl fuel Hpl) as Hchain.
  apply PostingsList_init_shaped in Hpl as (-> & _).
  split_and!; [apply sorted_Sorted|apply sorted_Permutation|done|].
  intros Hs fuel Hfuel. rewrite sorted_id by done. by apply Hchain.
Qed.

Lemma chain_order_witness :
  ∃ pl, PostingsList_init [3; 1; 3; 2]%Z 3 = Ok pl
    ∧ Sorted Z.le (docs pl) ∧ docs pl ≡ₚ [3; 1; 3; 2]%Z
    ∧ (∀ fuel, length [3; 1; 3; 2]%Z ≤ fuel →
         chain_docs fuel (heap pl) (root pl) = [3; 1; 3; 2]%Z)
    ∧ (Sorted Z.le [3; 1; 3; 2]%Z →
       ∀ fuel, length [3; 1; 3; 2]%Z ≤ fuel →
         chain_docs fuel (heap pl) (root pl) = docs pl).
Proof.
  eexists. split; [vm_compute; reflexivity|].
  apply (chain_order [3; 1; 3; 2]%Z 3). vm_compute; reflexivity.
Defined.

(** X3: a constructed list has a skip link at all exactly when its
    interval is positive and smaller than the number of ids; with a
    negative interval, or one that reaches the length, the chain is a
    plain linked list. *)
Theorem skip_links_exist ds itv pl :
  PostingsList_init ds itv = Ok pl →
  (∃ a node, heap pl !! a = Some node ∧ is_Some (next_skip node))
  ↔ (0 < itv < Z.of_nat (length ds))%Z.
Proof.
  intros (_ & _ & _ & [Hlen Hsh])%PostingsList_init_shaped. split.
  - intros (a & node & Ha & [b Hb]).
    assert (a < length ds) as Hlt
      by (rewrite <- Hlen; by eapply lookup_lt_Some).
    destruct (lookup_lt_is_Some_2 ds a Hlt) as [d Hd].
    rewrite (Hsh _ _ Hd) in Ha. injection Ha as <-. simpl in Hb.
    unfold skip_of in Hb. case_decide; [lia|done].
  - intros Hitv.
    destruct (lookup_lt_is_Some_2 ds 0) as [d Hd]; [lia|].
    eexists 0, _. split; [by apply Hsh|]. simpl. unfold skip_of.
    rewrite decide_True; [by eexists|].
    split_and!; [lia| |lia]. apply Nat.Div0.mod_0_l.
Qed.

Lemma skip_links_exist_witness :
  ∃ pl, PostingsList_init five_ids 5 = Ok pl ∧
    ((∃ a node, heap pl !! a = Some node ∧ is_Some (next_skip node))
     ↔ (0 < 5 < Z.of_nat (length five_ids))%Z).
Proof.
  eexists. split; [vm_compute; reflexivity|].
  apply (skip_links_exist five_ids 5). vm_compute; reflexivity.
Defined.

(** * More on the merge *)

(** X4: whatever the merge returns for two constructed lists holds no id
    twice, and every id of it is an id of both lists. *)
Theorem intersection_within_both list_of_set fuel A B r :
  set_listing list_of_set → constructed A → constructed B →
  get_intersecting_documents list_of_set fuel A B = Ok r →
  NoDup r ∧ ∀ x, x ∈ r → x ∈ docs A ∧ x ∈ docs B.
Proof. apply get_intersecting_documents_sound. Qed.

Lemma intersection_within_both_witness :
  ∃ A B,
    PostingsList_init seven_ids 3 = Ok A
    ∧ PostingsList_init [10; 20; 20; 70]%Z 3 = Ok B
    ∧ get_intersecting_documents remove_dups 11 A B = Ok [10; 20]%Z
    ∧ NoDup [10; 20]%Z
    ∧ ∀ x, x ∈ [10; 20]%Z → x ∈ docs A ∧ x ∈ docs B.
Proof.
  eexists _, _. split; [vm_compute; reflexivity|].
  split; [vm_compute; reflexivity|]. split; [vm_compute; reflexivity|].
  eapply (intersection_within_both remove_dups 11);
    [apply set_listing_remove_dups|by exists seven_ids, 3%Z
    |by exists [10; 20; 20; 70]%Z, 3%Z|vm_compute; reflexivity].
Defined.

(** X5: a list constructed from no ids gives the empty intersection on
    either side, for every other list and without any iteration. *)
Theorem intersection_with_empty list_of_set fuel itv E B :
  set_listing list_of_set → PostingsList_init [] itv = Ok E →
  get_intersecting_documents list_of_set fuel E B = Ok []
  ∧ get_intersecting_documents list_of_set fuel B E = Ok [].
Proof.
  intros Hf [= <-]. unfold get_intersecting_documents.
  split; destruct fuel, (root B); simpl; by rewrite (set_listing_nil _ Hf).
Qed.

Lemma intersection_with_empty_witness :
  ∃ E B,
    PostingsList_init [] 3 = Ok E ∧ PostingsList_init five_ids 3 = Ok B
    ∧ get_intersecting_documents remove_dups 0 E B = Ok []
    ∧ get_intersecting_documents remove_dups 0 B E = Ok [].
Proof.
  eexists _, _. split; [reflexivity|]. split; [vm_compute; reflexivity|].
  apply (intersection_with_empty remove_dups 0 3);
    [apply set_listing_remove_dups|reflexivity].
Defined.

Lemma cursor_next n a : next_of n a = cursor n (S a).
Proof. done. Qed.

Lemma merge_loop_self ds itv h : shaped ds itv h → ∀ fuel a result,
  length ds - a ≤ fuel →
  merge_loop fuel h h (cursor (length ds) a) (cursor (length ds) a) result
  = Ok (result ++ drop a ds).
Proof.
  intros [Hlen Hsh]. induction fuel as [|fuel IH]; intros a result Hfuel.
  - unfold cursor. rewrite decide_False by lia. simpl.
    rewrite drop_ge by lia. by rewrite app_nil_r.
  - unfold cursor. case_decide as Ha.
    + destruct (lookup_lt_is_Some_2 ds a Ha) as [d Hd].
      cbn [merge_loop]. unfold merge_body, deref.
      rewrite (Hsh _ _ Hd). cbn [bind doc next].
      rewrite Z.eqb_refl. cbn [bind fst snd].
      rewrite !cursor_next, IH by lia.
      rewrite (drop_S _ _ _ Hd). by rewrite <- (assoc_L (++)).
    + simpl. rewrite drop_ge by lia. by rewrite app_nil_r.
Qed.

(** X6: a constructed list intersected with itself gives every id of
    the list, once, whatever its order and its skip links. *)
Theorem intersection_with_itself list_of_set fuel A :
  set_listing list_of_set → constructed A → length (docs A) ≤ fuel →
  ∃ r, get_intersecting_documents list_of_set fuel A A = Ok r
       ∧ NoDup r ∧ ∀ x, x ∈ r ↔ x ∈ docs A.
Proof.
  intros Hf (ds & itv & Hpl) Hfuel.
  pose proof (PostingsList_init_length _ _ _ Hpl) as [_ Hld].
  apply PostingsList_init_shaped in Hpl as (Hdocs & _ & Hr & Hs).
  unfold get_intersecting_documents.
  assert (root A = cursor (length ds) 0) as ->.
  { rewrite Hr. unfold cursor. by destruct ds. }
  rewrite (merge_loop_self _ _ _ Hs) by lia. cbn [bind app].
  rewrite drop_0. eexists. split; [done|].
  destruct (Hf ds) as [Hnd Hin]. split; [done|].
  intros x. by rewrite Hin, Hdocs, sorted_Permutation.
Qed.

Lemma intersection_with_itself_witness :
  ∃ A, PostingsList_init [3; 1; 3; 2]%Z 3 = Ok A
    ∧ ∃ r, get_intersecting_documents remove_dups 4 A A = Ok r
           ∧ NoDup r ∧ ∀ x, x ∈ r ↔ x ∈ docs A.
Proof.
  eexists. split; [vm_compute; reflexivity|].
  apply (intersection_with_itself remove_dups 4);
    [apply set_listing_remove_dups|by exists [3; 1; 3; 2]%Z, 3%Z
    |vm_compute; lia].
Defined.

Lemma form_intersection_with_docs list_of_set fuel self other r :
  set_listing list_of_set → constructed self → constructed other →
  form_intersection_with list_of_set fuel self other = Ok r →
  constructed r ∧ Sorted Z.le (docs r) ∧ NoDup (docs r)
  ∧ ∀ x, x ∈ docs r → x ∈ docs self ∧ x ∈ docs other.
Proof.
  intros Hf Hs Ho. unfold form_intersection_with.
  intros (ids & Hids & Hr)%bind_Ok.
  apply get_intersecting_documents_sound in Hids as [Hnd Hin]; [|done..].
  split; [by eexists _, _|].
  apply PostingsList_init_shaped in Hr as (-> & _).
  split_and!; [apply sorted_Sorted|by rewrite sorted_Permutation|].
  intros x. rewrite sorted_Permutation. apply Hin.
Qed.

(** X8: the list [form_intersection_with] returns for two constructed
    lists has ascending [docs] without repetition, all of them ids of
    both lists. *)
Theorem intersection_list_docs list_of_set fuel self other r :
  set_listing list_of_set → constructed self → constructed other →
  form_intersection_with list_of_set fuel self other = Ok r →
  Sorted Z.le (docs r) ∧ NoDup (docs r)
  ∧ ∀ x, x ∈ docs r → x ∈ docs self ∧ x ∈ docs other.
Proof. intros Hf Hs Ho Hr. by eapply form_intersection_with_docs. Qed.

Lemma intersection_list_docs_witness :
  ∃ A B r,
    PostingsList_init seven_ids 3 = Ok A
    ∧ PostingsList_init [10; 20; 20; 70]%Z 3 = Ok B
    ∧ form_intersection_with remove_dups 11 A B = Ok r
    ∧ docs r = [10; 20]%Z
    ∧ Sorted Z.le (docs r) ∧ NoDup (docs r)
    ∧ ∀ x, x ∈ docs r → x ∈ docs A ∧ x ∈ docs B.
Proof.
  eexists _, _, _. split; [vm_compute; reflexivity|].
  split; [vm_compute; reflexivity|]. split; [vm_compute; reflexivity|].
  split; [vm_compute; reflexivity|].
  eapply (intersection_list_docs remove_dups 11);
    [apply set_listing_remove_dups|by exists seven_ids, 3%Z
    |by exists [10; 20; 20; 70]%Z, 3%Z|vm_compute; reflexivity].
Defined.

(** ** Lists without skip links *)

Lemma lmerge_nil_l l2 : lmerge [] l2 = [].
Proof. by destruct l2. Qed.

Lemma lmerge_nil_r l1 : lmerge l1 [] = [].
Proof. by destruct l1. Qed.

Lemma lmerge_cons x l1 y l2 :
  lmerge (x :: l1) (y :: l2) =
  if (x =? y)%Z then x :: lmerge l1 l2
  else if (x <? y)%Z then lmerge l1 (y :: l2)
  else lmerge (x :: l1) l2.
Proof. done. Qed.

Lemma lmerge_spec l1 : ∀ l2,
  StronglySorted Z.le l1 → StronglySorted Z.le l2 →
  ∀ z, z ∈ lmerge l1 l2 ↔ z ∈ l1 ∧ z ∈ l2.
Proof.
  induction l1 as [|x l1 IH1]; intros l2 Hs1 Hs2 z.
  { destruct l2; simpl; rewrite elem_of_nil; tauto. }
  apply StronglySorted_cons in Hs1 as [Hx Hs1].
  rewrite Forall_forall in Hx.
  induction l2 as [|y l2 IH2].
  { rewrite lmerge_nil_r, elem_of_nil. tauto. }
  pose proof Hs2 as [Hy Hs2']%StronglySorted_cons.
  rewrite Forall_forall in Hy.
  rewrite lmerge_cons.
  destruct (Z.eqb_spec x y) as [<-|Hne].
  - rewrite !elem_of_cons, (IH1 l2 Hs1 Hs2'). tauto.
  - destruct (Z.ltb_spec x y) as [Hlt|Hge].
    + rewrite (IH1 _ Hs1 Hs2), !elem_of_cons. split; [tauto|].
      intros [[->|?] [->|Hz]]; try tauto; try lia.
      apply Hy in Hz. lia.
    + rewrite (IH2 Hs2'), !elem_of_cons. split; [tauto|].
      intros [[->|Hz] [->|?]]; try tauto; try lia.
      apply Hx in Hz. lia.
Qed.

Lemma naive_loop_lmerge ds1 k1 h1 ds2 k2 h2 :
  shaped ds1 k1 h1 → shaped ds2 k2 h2 → ∀ fuel a1 a2 result,
  (length ds1 - a1) + (length ds2 - a2) ≤ fuel →
  naive_loop fuel h1 h2 (cursor (length ds1) a1) (cursor (length ds2) a2)
    result
  = Ok (result ++ lmerge (drop a1 ds1) (drop a2 ds2)).
Proof.
  intros [Hlen1 Hsh1] [Hlen2 Hsh2].
  induction fuel as [|fuel IH]; intros a1 a2 result Hfuel; unfold cursor.
  - rewrite !decide_False by lia. simpl.
    rewrite (drop_ge ds1) by lia. by rewrite lmerge_nil_l, app_nil_r.
  - destruct (decide (a1 < length ds1)) as [Ha1|Ha1]; cycle 1.
    { simpl. rewrite (drop_ge ds1) by lia.
      by rewrite lmerge_nil_l, app_nil_r. }
    destruct (decide (a2 < length ds2)) as [Ha2|Ha2]; cycle 1.
    { simpl. rewrite (drop_ge ds2) by lia.
      by rewrite lmerge_nil_r, app_nil_r. }
    destruct (lookup_lt_is_Some_2 ds1 a1 Ha1) as [x Hx].
    destruct (lookup_lt_is_Some_2 ds2 a2 Ha2) as [y Hy].
    cbn [naive_loop]. unfold naive_body, deref.
    rewrite (Hsh1 _ _ Hx), (Hsh2 _ _ Hy). cbn [bind doc next].
    rewrite (drop_S _ _ _ Hx), (drop_S _ _ _ Hy), lmerge_cons.
    destruct (x =? y)%Z.
    + cbn [bind fst snd]. rewrite !cursor_next, IH by lia.
      by rewrite <- (assoc_L (++)).
    + destruct (x <? y)%Z; cbn [bind fst snd].
      * rewrite cursor_next.
        replace (Some a2) with (cursor (length ds2) a2)
          by (unfold cursor; by rewrite decide_True).
        rewrite IH by lia. by rewrite (drop_S _ _ _ Hy).
      * rewrite cursor_next.
        replace (Some a1) with (cursor (length ds1) a1)
          by (unfold cursor; by rewrite decide_True).
        rewrite IH by lia. by rewrite (drop_S _ _ _ Hx).
Qed.

Lemma shaped_no_skips ds itv h :
  shaped ds itv h → (itv < 0 ∨ Z.of_nat (length ds) ≤ itv)%Z →
  strip_skips h = h.
Proof.
  intros [Hlen Hsh] Hitv. apply list_eq. intros i.
  unfold strip_skips. rewrite list_lookup_fmap.
  destruct (ds !! i) as [d|] eqn:Hd.
  - rewrite (Hsh _ _ Hd). simpl. unfold skip_of.
    by rewrite decide_False by lia.
  - apply lookup_ge_None in Hd.
    by rewrite (proj2 (lookup_ge_None h i)) by lia.
Qed.

(** X7: for two ascending inputs whose constructed lists carry no skip
    link (interval negative, or at least the number of ids), the merge
    returns exactly the ids that are in both inputs, each once. *)
Theorem intersection_without_skips list_of_set fuel ds1 k1 ds2 k2 A B :
  set_listing list_of_set →
  PostingsList_init ds1 k1 = Ok A → PostingsList_init ds2 k2 = Ok B →
  Sorted Z.le ds1 → Sorted Z.le ds2 →
  (k1 < 0 ∨ Z.of_nat (length ds1) ≤ k1)%Z →
  (k2 < 0 ∨ Z.of_nat (length ds2) ≤ k2)%Z →
  length ds1 + length ds2 ≤ fuel →
  ∃ r, get_intersecting_documents list_of_set fuel A B = Ok r
       ∧ NoDup r ∧ ∀ x, x ∈ r ↔ x ∈ ds1 ∧ x ∈ ds2.
Proof.
  intros Hf HA HB Hs1 Hs2 Hk1 Hk2 Hfuel.
  apply PostingsList_init_shaped in HA as (_ & _ & HrA & HsA).
  apply PostingsList_init_shaped in HB as (_ & _ & HrB & HsB).
  unfold get_intersecting_documents.
  rewrite <- (shaped_no_skips _ _ _ HsA Hk1), <- (shaped_no_skips _ _ _ HsB Hk2).
  rewrite merge_loop_strip_skips.
  assert (root A = cursor (length ds1) 0) as ->
    by (rewrite HrA; unfold cursor; by destruct ds1).
  assert (root B = cursor (length ds2) 0) as ->
    by (rewrite HrB; unfold cursor; by destruct ds2).
  rewrite (naive_loop_lmerge _ _ _ _ _ _ HsA HsB) by lia.
  cbn [bind app]. rewrite !drop_0. eexists. split; [done|].
  destruct (Hf (lmerge ds1 ds2)) as [Hnd Hin]. split; [done|].
  intros x. rewrite Hin.
  apply lmerge_spec; by apply Sorted_StronglySorted; [apply _|].
Qed.

Lemma intersection_without_skips_witness :
  ∃ A B,
    PostingsList_init [1; 2; 2]%Z 3 = Ok A
    ∧ PostingsList_init [2; 3]%Z 3 = Ok B
    ∧ ∃ r, get_intersecting_documents remove_dups 5 A B = Ok r
           ∧ NoDup r ∧ ∀ x, x ∈ r ↔ x ∈ [1; 2; 2]%Z ∧ x ∈ [2; 3]%Z.
Proof.
  eexists _, _. split; [vm_compute; reflexivity|].
  split; [vm_compute; reflexivity|].
  apply (intersection_without_skips remove_dups 5 [1; 2; 2]%Z 3 [2; 3]%Z 3);
    [apply set_listing_remove_dups|vm_compute; reflexivity
    |vm_compute; reflexivity|repeat constructor; lia|repeat constructor; lia
    |simpl; lia|simpl; lia|simpl; lia].
Defined.

(** * More on queries *)

Section QueryFold.

Variable list_of_set : list Z → list Z.
Variable index : gmap string (list Z).
Variable fuel : nat.

Lemma query_body_constructed acc token acc' :
  constructed_opt acc →
  query_body list_of_set fuel index acc token = Ok acc' →
  constructed_opt acc'.
Proof.
  intros Hacc. unfold query_body.
  destruct (index !! token) as [raw|]; [|by intros [= <-]].
  case_bool_decide; [by intros [= <-]|].
  intros (pl & Hpl & Hk)%bind_Ok.
  destruct acc as [self|].
  - apply bind_Ok in Hk as (r & Hr & [= <-]).
    unfold form_intersection_with in Hr.
    apply bind_Ok in Hr as (ids & _ & Hinit).
    intros ? [= <-]. by eexists _, _.
  - injection Hk as <-. intros ? [= <-]. by eexists _, _.
Qed.

Lemma for_each_query_constructed tokens : ∀ acc acc',
  constructed_opt acc →
  for_each (query_body list_of_set fuel index) tokens acc = Ok acc' →
  constructed_opt acc'.
Proof.
  induction tokens as [|token tokens IH]; intros acc acc' Hacc;
    cbn [for_each].
  { by intros [= <-]. }
  intros (acc1 & H1 & Hrest)%bind_Ok.
  eapply IH; [|done]. by eapply query_body_constructed.
Qed.

Hypothesis listing : set_listing list_of_set.

(** What one token does to the running intersection. *)
Lemma query_body_cases acc token acc' :
  constructed_opt acc →
  query_body list_of_set fuel index acc token = Ok acc' →
  (¬ contributes index token ∧ acc' = acc)
  ∨ (∃ raw pl',
       index !! token = Some raw ∧ token ≠ EmptyString
       ∧ acc' = Some pl'
       ∧ (∀ x, x ∈ docs pl' → x ∈ raw)
       ∧ (∀ pl, acc = Some pl →
            NoDup (docs pl') ∧ ∀ x, x ∈ docs pl' → x ∈ docs pl)).
Proof.
  intros Hacc. unfold query_body.
  destruct (index !! token) as [raw|] eqn:Hraw; cycle 1.
  { intros [= <-]. left. split; [|done]. intros [[? ?] _]. congruence. }
  case_bool_decide as Hemp.
  { intros [= <-]. left. split; [|done]. by intros [_ ?]. }
  intros (pl & Hpl & Hk)%bind_Ok. right.
  assert (constructed pl) as Hc by by eexists _, _.
  pose proof Hpl as (Hdocs & _)%PostingsList_init_shaped.
  destruct acc as [self|].
  - apply bind_Ok in Hk as (r & Hr & [= <-]).
    destruct (form_intersection_with_docs list_of_set fuel self pl r)
      as (_ & _ & Hnd & Hin); [done|by apply Hacc|done..|].
    exists raw, r. split_and!; try done.
    + intros x [_ Hx]%Hin. by rewrite Hdocs, sorted_Permutation in Hx.
    + intros ? [= <-]. split; [done|]. intros x Hx. by apply Hin.
  - injection Hk as <-. exists raw, pl. split_and!; try done.
    intros x. by rewrite Hdocs, sorted_Permutation.
Qed.

Lemma for_each_query_within tokens : ∀ acc acc',
  constructed_opt acc →
  for_each (query_body list_of_set fuel index) tokens acc = Ok acc' →
  ∀ x, x ∈ result_docs acc' →
    (∀ pl, acc = Some pl → x ∈ docs pl)
    ∧ ∀ token raw, token ∈ tokens → token ≠ EmptyString →
        index !! token = Some raw → x ∈ raw.
Proof.
  induction tokens as [|token tokens IH]; intros acc acc' Hacc;
    cbn [for_each].
  { intros [= <-] x Hx. split; [by intros ? ->|].
    by intros ? ? ?%elem_of_nil. }
  intros (acc1 & H1 & Hrest)%bind_Ok x Hx.
  pose proof (query_body_constructed _ _ _ Hacc H1) as Hacc1.
  destruct (IH _ _ Hacc1 Hrest x Hx) as [Hprev Htoks].
  destruct (query_body_cases _ _ _ Hacc H1)
    as [[Hn ->]|(raw & pl' & Hraw & Hne & -> & Hin & Hself)].
  - split; [done|]. intros t raw [->|Ht]%elem_of_cons Hne Hraw.
    + exfalso. apply Hn. split; [by eexists|done].
    + by eapply Htoks.
  - specialize (Hprev _ eq_refl). split.
    + intros pl ->. by apply (Hself _ eq_refl).
    + intros t raw' [->|Ht]%elem_of_cons Hne' Hraw'.
      * rewrite Hraw in Hraw'. injection Hraw' as <-. by apply Hin.
      * by eapply Htoks.
Qed.

Lemma for_each_query_NoDup_from tokens : ∀ pl acc',
  constructed pl →
  for_each (query_body list_of_set fuel index) tokens (Some pl) = Ok acc' →
  NoDup (docs pl) ∨ Exists (contributes index) tokens →
  NoDup (result_docs acc').
Proof.
  induction tokens as [|token tokens IH]; intros pl acc' Hpl;
    cbn [for_each].
  { intros [= <-] [?|?%Exists_nil]; done. }
  intros (acc1 & H1 & Hrest)%bind_Ok Hor.
  assert (constructed_opt (Some pl)) as Hacc by by intros ? [= <-].
  pose proof (query_body_constructed _ _ _ Hacc H1) as Hacc1.
  destruct (query_body_cases _ _ _ Hacc H1)
    as [[Hn ->]|(raw & pl' & Hraw & Hne & -> & Hin & Hself)].
  - apply (IH pl); [done..|].
    destruct Hor as [?|[?|?]%Exists_cons]; [by left|done|by right].
  - apply (IH pl'); [by apply Hacc1|done|]. left.
    by apply (Hself _ eq_refl).
Qed.

Lemma for_each_query_NoDup tokens : ∀ acc',
  for_each (query_body list_of_set fuel index) tokens None = Ok acc' →
  2 ≤ length (filter (contributes index) tokens) →
  NoDup (result_docs acc').
Proof.
  induction tokens as [|token tokens IH]; intros acc'; cbn [for_each].
  { rewrite filter_nil. simpl. lia. }
  intros (acc1 & H1 & Hrest)%bind_Ok Hlen.
  assert (constructed_opt None) as Hacc by done.
  pose proof (query_body_constructed _ _ _ Hacc H1) as Hacc1.
  destruct (query_body_cases _ _ _ Hacc H1)
    as [[Hn ->]|(raw & pl' & Hraw & Hne & -> & Hin & Hself)].
  - rewrite filter_cons_False in Hlen by done. by apply IH.
  - rewrite filter_cons_True in Hlen by (split; [by eexists|done]).
    apply (for_each_query_NoDup_from tokens pl'); [by apply Hacc1|done|].
    right. apply Exists_exists.
    destruct (filter (contributes index) tokens) as [|t ?] eqn:Hf;
      [simpl in Hlen; lia|].
    assert (t ∈ filter (contributes index) tokens) as Ht
      by (rewrite Hf; apply list_elem_of_here).
    apply list_elem_of_filter in Ht as [? ?]. by exists t.
Qed.

End QueryFold.

(** X9: every list [query] returns is ascending. *)
Theorem query_sorted list_of_set fuel index text r :
  query list_of_set fuel index text = Ok r → Sorted Z.le r.
Proof.
  unfold query, and_fold. intros (acc & Hacc & [= <-])%bind_Ok.
  apply for_each_query_constructed in Hacc; [|done].
  destruct acc as [pl|]; [|constructor].
  destruct (Hacc pl eq_refl) as (ds & itv & (-> & _)%PostingsList_init_shaped).
  apply sorted_Sorted.
Qed.

Lemma query_sorted_witness : Sorted Z.le [2; 4; 6; 8]%Z.
Proof.
  apply (query_sorted remove_dups 14 scenario_index "a b"). reflexivity.
Defined.

(** X10: when every token of the text is empty or not in the index,
    [query] returns the empty list; the empty text is such a text. *)
Theorem query_nothing_known list_of_set fuel index text :
  (∀ token, token ∈ re_split text →
     token = EmptyString ∨ index !! token = None) →
  query list_of_set fuel index text = Ok [].
Proof.
  intros Hall. unfold query, and_fold. rewrite for_each_query_filter.
  assert (filter (contributes index) (re_split text) = []) as ->; [|done].
  destruct (filter _ _) as [|t ?] eqn:Hf; [done|]. exfalso.
  assert (t ∈ filter (contributes index) (re_split text)) as Ht
    by (rewrite Hf; apply list_elem_of_here).
  apply list_elem_of_filter in Ht as [[[? Hl] ?] Hin].
  destruct (Hall _ Hin); congruence.
Qed.

Lemma query_nothing_known_witness :
  query remove_dups 0 cat_index "" = Ok [].
Proof.
  apply (query_nothing_known remove_dups 0 cat_index "").
  intros token [->|[]%elem_of_nil]%elem_of_cons. by left.
Defined.

(** X11: an id that [query] returns is an id of every token of the text
    that is in the index and not empty. *)
Theorem query_within_every_token list_of_set fuel index text r :
  set_listing list_of_set →
  query list_of_set fuel index text = Ok r →
  ∀ token raw, token ∈ re_split text → token ≠ EmptyString →
    index !! token = Some raw → ∀ x, x ∈ r → x ∈ raw.
Proof.
  intros Hf. unfold query, and_fold.
  intros (acc & Hacc & [= <-])%bind_Ok token raw Ht Hne Hraw x Hx.
  by eapply (for_each_query_within list_of_set index fuel Hf
               (re_split text) None acc).
Qed.

Lemma query_within_every_token_witness : 6%Z ∈ [2; 4; 6; 8; 10]%Z.
Proof.
  apply (query_within_every_token remove_dups 14 scenario_index "a b"
           [2; 4; 6; 8]%Z (set_listing_remove_dups) eq_refl "b");
    [|done|reflexivity|].
  - apply list_elem_of_In. vm_compute. tauto.
  - apply list_elem_of_In. vm_compute. tauto.
Defined.

(** X12: when at least two tokens of the text are in the index and not
    empty, the list [query] returns holds no id twice. *)
Theorem query_no_repetition list_of_set fuel index text r :
  set_listing list_of_set →
  2 ≤ length (filter (contributes index) (re_split text)) →
  query list_of_set fuel index text = Ok r → NoDup r.
Proof.
  intros Hf Hlen. unfold query, and_fold.
  intros (acc & Hacc & [= <-])%bind_Ok.
  by eapply (for_each_query_NoDup list_of_set index fuel Hf).
Qed.

Lemma query_no_repetition_witness : NoDup [1; 2]%Z.
Proof.
  apply (query_no_repetition remove_dups 6 x_index "x x");
    [apply set_listing_remove_dups|vm_compute; lia|reflexivity].
Defined.
